(** * Escape the Ice: the puzzle engine of [app.py]

    A shallow embedding of the game logic of [app.py] (grid generation,
    ice spreading, the safe-path search, the calibration loop and the
    move handler), followed by the properties of it that the
    specification states. *)

From Stdlib Require Import ZArith Ascii Lia Bool.
From stdpp Require Import base list strings.

Local Open Scope Z_scope.

(** ** Results of running a piece of the script

    Indexing a Python list out of range raises [IndexError]; a [while]
    loop is run with a bound on its iterations and [OutOfFuel] says the
    bound was hit before the loop ended. *)

Inductive result (A : Type) : Type :=
| Ok (a : A)
| IndexError
| OutOfFuel.

Arguments Ok {A} a.
Arguments IndexError {A}.
Arguments OutOfFuel {A}.

Definition bind {A B : Type} (m : result A) (k : A → result B) : result B :=
  match m with
  | Ok a => k a
  | IndexError => IndexError
  | OutOfFuel => OutOfFuel
  end.

Notation "'let*' x := m 'in' k" := (bind m (fun x => k))
  (at level 10, x pattern, m at level 100, k at level 200).

(** [for x in l: body], threading the variables the body assigns. *)
Fixpoint for_each {A S : Type} (l : list A) (body : A → S → result S) (s : S)
  : result S :=
  match l with
  | [] => Ok s
  | a :: l' => let* s' := body a s in for_each l' body s'
  end.

(** ** Python lists and matrices *)

(** [l[i]]: a negative index counts from the end. *)
Definition norm_index {A : Type} (l : list A) (i : Z) : Z :=
  if i <? 0 then i + Z.of_nat (length l) else i.

Definition getitem {A : Type} (l : list A) (i : Z) : result A :=
  let j := norm_index l i in
  if j <? 0 then IndexError
  else match l !! Z.to_nat j with
       | Some x => Ok x
       | None => IndexError
       end.

(** [l[i] = x] *)
Definition setitem {A : Type} (l : list A) (i : Z) (x : A) : result (list A) :=
  let j := norm_index l i in
  if j <? 0 then IndexError
  else if (Z.to_nat j <? length l)%nat then Ok (<[Z.to_nat j := x]> l)
  else IndexError.

(** [m[r][c]] and [m[r][c] = x] (the rows are distinct lists). *)
Definition get2 {A : Type} (m : list (list A)) (r c : Z) : result A :=
  let* row := getitem m r in getitem row c.

Definition set2 {A : Type} (m : list (list A)) (r c : Z) (x : A)
  : result (list (list A)) :=
  let* row := getitem m r in
  let* row' := setitem row c x in
  setitem m r row'.

(** [range(n)] and [range(a, b)] *)
Definition range (n : Z) : list Z := (λ i, Z.of_nat i) <$> seq 0 (Z.to_nat n).
Definition range_from (a b : Z) : list Z :=
  (λ i, a + Z.of_nat i) <$> seq 0 (Z.to_nat (b - a)).

(** ** The data of the game *)

(** A cell is one character: ['.'] open, ['#'] wall, ['I'] ice seed. *)
Definition Grid := list (list ascii).

(** A freeze time is an [int] or [math.inf]. *)
Inductive ftime : Type :=
| Fin (t : Z)
| Inf.

Definition IceTime := list (list ftime).

(** [a < f], [f > a], [a >= f] and [f <= a] for an int [a]. *)
Definition lt_ftime (a : Z) (f : ftime) : bool :=
  match f with Fin t => a <? t | Inf => true end.
Definition ftime_gt (f : ftime) (a : Z) : bool := lt_ftime a f.
Definition ge_ftime (a : Z) (f : ftime) : bool :=
  match f with Fin t => t <=? a | Inf => false end.
Definition ftime_le (f : ftime) (a : Z) : bool := ge_ftime a f.

(** A queue entry [(r, c, t)]. *)
Definition Entry := (Z * Z * Z)%type.
Definition entry_cell (e : Entry) : Z * Z := (e.1.1, e.1.2).
Definition entry_time (e : Entry) : Z := e.2.

(** [R, C = len(grid), len(grid[0])] *)
Definition dims {A : Type} (grid : list (list A)) : result (Z * Z) :=
  let* row0 := getitem grid 0 in
  Ok (Z.of_nat (length grid), Z.of_nat (length row0)).

Definition in_bounds (R C nr nc : Z) : bool :=
  (0 <=? nr) && (nr <? R) && (0 <=? nc) && (nc <? C).

Definition directions : list (Z * Z) := [(-1, 0); (1, 0); (0, -1); (0, 1)].

(** ** The random source

    The draws of the process-wide generator are a sequence; the state is
    the position of the next draw.  [randbelow n] is the primitive of
    Python's [random] module that [randint] and [shuffle] are built on. *)

Record Random : Type := mkRandom { draws : nat → nat; cursor : nat }.

Definition randbelow (n : nat) (g : Random) : nat * Random :=
  ((draws g (cursor g) mod n)%nat, mkRandom (draws g) (S (cursor g))).

(** [random.randint(a, b)] is [a + randbelow(b - a + 1)]. *)
Definition randint (a b : nat) (g : Random) : nat * Random :=
  let '(k, g') := randbelow (b - a + 1)%nat g in ((a + k)%nat, g').

(** [x[i], x[j] = x[j], x[i]] *)
Definition swap {A : Type} (x : list A) (i j : nat) : list A :=
  match x !! i, x !! j with
  | Some a, Some b => <[j := a]> (<[i := b]> x)
  | _, _ => x
  end.

(** [random.shuffle(x)]:
    [for i in reversed(range(1, len(x))): j = randbelow(i + 1); swap] *)
Fixpoint shuffle_from {A : Type} (i : nat) (x : list A) (g : Random)
  : list A * Random :=
  match i with
  | O => (x, g)
  | S i' =>
      let '(j, g') := randbelow (S i) g in
      shuffle_from i' (swap x i j) g'
  end.

Definition shuffle {A : Type} (x : list A) (g : Random) : list A * Random :=
  shuffle_from (length x - 1)%nat x g.

(** ** [generate_grid] *)

Definition base_grid : Grid :=
  let o := "."%char in
  let w := "#"%char in
  [ [o; o; o; o; o; o; o; o; w; o];
    [o; o; o; o; o; o; o; o; o; o];
    [o; o; o; o; o; o; o; o; o; o];
    [o; o; o; o; o; o; o; o; o; o];
    [w; o; o; o; o; o; o; o; o; o];
    [o; o; o; o; o; o; o; o; o; o];
    [o; o; o; o; o; o; o; o; o; o];
    [o; o; o; o; o; o; o; o; o; o];
    [o; o; o; o; o; o; o; o; o; o];
    [o; o; o; o; o; w; o; o; o; o] ].

Definition pos_eqb (p q : Z * Z) : bool := (p.1 =? q.1) && (p.2 =? q.2).

(** The condition of the comprehension that builds [possible_positions]. *)
Definition eligible (base : Grid) (C r c : Z) : result bool :=
  let* ch := get2 base r c in
  Ok (Ascii.eqb ch "."
      && negb (existsb (pos_eqb (r, c)) [(0, 0); (0, C - 1)])
      && negb ((r <? 3) && (c <? 3))).

Definition possible_positions (base : Grid) (R C : Z) : result (list (Z * Z)) :=
  for_each (range R)
    (λ r acc,
      for_each (range_from (C / 2) C)
        (λ c acc,
          let* ok := eligible base C r c in
          Ok (if ok then acc ++ [(r, c)] else acc))
        acc)
    [].

Definition place_ice (positions : list (Z * Z)) (i : Z) (grid : Grid)
  : result Grid :=
  let* p := getitem positions i in
  set2 grid p.1 p.2 "I"%char.

Definition generate_grid (g : Random) : result (Grid * Random) :=
  let* (R, C) := dims base_grid in
  let '(num_ice, g1) := randint 3 5 g in
  let* positions := possible_positions base_grid R C in
  let '(shuffled, g2) := shuffle positions g1 in
  let* grid :=
    for_each (range (Z.of_nat (min num_ice (length shuffled))))
      (place_ice shuffled) base_grid in
  Ok (grid, g2).

(** ** [compute_ice_times] *)

(** The two nested [for] loops that set the seeds to 0 and enqueue them. *)
Definition seed_cell (grid : Grid) (r c : Z) (st : IceTime * list Entry)
  : result (IceTime * list Entry) :=
  let* ch := get2 grid r c in
  if Ascii.eqb ch "I" then
    let* ice' := set2 st.1 r c (Fin 0) in
    Ok (ice', st.2 ++ [(r, c, 0)])
  else Ok st.

Definition seed_all (grid : Grid) (R C : Z) (st : IceTime * list Entry)
  : result (IceTime * list Entry) :=
  for_each (range R) (λ r st, for_each (range C) (λ c st, seed_cell grid r c st) st) st.

(** The body of [for dr, dc in dirs[:3]]. *)
Definition relax (grid : Grid) (R C spread_interval r c t : Z) (d : Z * Z)
    (st : IceTime * list Entry) : result (IceTime * list Entry) :=
  let nr := r + d.1 in
  let nc := c + d.2 in
  if in_bounds R C nr nc then
    let* ch := get2 grid nr nc in
    if negb (Ascii.eqb ch "#") then
      let* it := get2 st.1 nr nc in
      if ftime_gt it (t + spread_interval) then
        let* ice' := set2 st.1 nr nc (Fin (t + spread_interval)) in
        Ok (ice', st.2 ++ [(nr, nc, t + spread_interval)])
      else Ok st
    else Ok st
  else Ok st.

(** [dirs = directions[:]; random.shuffle(dirs); dirs[:random.randint(3,3)]] *)
Definition attempted_dirs (g : Random) : list (Z * Z) * Random :=
  let '(dirs, g1) := shuffle directions g in
  let '(k, g2) := randint 3 3 g1 in
  (take k dirs, g2).

(** One iteration of [while q]. *)
Definition expand (grid : Grid) (R C spread_interval : Z) (e : Entry)
    (ice : IceTime) (q : list Entry) (g : Random)
  : result (IceTime * list Entry * Random) :=
  let '(r, c, t) := e in
  let '(dirs, g') := attempted_dirs g in
  let* st := for_each dirs (relax grid R C spread_interval r c t) (ice, q) in
  Ok (st, g').

Fixpoint ice_loop (fuel : nat) (grid : Grid) (R C spread_interval : Z)
    (ice : IceTime) (q : list Entry) (g : Random) : result (IceTime * Random) :=
  match fuel with
  | O => OutOfFuel
  | S fuel' =>
      match q with
      | [] => Ok (ice, g)
      | e :: q' =>
          let* (ice', q'', g') := expand grid R C spread_interval e ice q' g in
          ice_loop fuel' grid R C spread_interval ice' q'' g'
      end
  end.

(** The number of iterations below suffices whenever the interval is not
    negative ([compute_ice_times_inv]). *)
Definition loop_bound (R C : Z) : nat := S (3 * Z.to_nat (R * C)).

Definition compute_ice_times (grid : Grid) (spread_interval : Z) (g : Random)
  : result (IceTime * Random) :=
  let* (R, C) := dims grid in
  let ice_time := replicate (Z.to_nat R) (replicate (Z.to_nat C) Inf) in
  let* (ice, q) := seed_all grid R C (ice_time, []) in
  ice_loop (loop_bound R C) grid R C spread_interval ice q g.

(** ** [find_shortest_safe_steps] *)

Definition Visited := list (list bool).

(** The body of [for dr, dc in [(-1,0),(1,0),(0,-1),(0,1)]]. *)
Definition try_enter (grid : Grid) (ice : IceTime) (R C r c steps : Z) (d : Z * Z)
    (st : Visited * list Entry) : result (Visited * list Entry) :=
  let nr := r + d.1 in
  let nc := c + d.2 in
  if in_bounds R C nr nc then
    let* seen := get2 st.1 nr nc in
    if negb seen then
      let* ch := get2 grid nr nc in
      if negb (Ascii.eqb ch "#") then
        let* it := get2 ice nr nc in
        if lt_ftime (steps + 1) it then
          let* visited' := set2 st.1 nr nc true in
          Ok (visited', st.2 ++ [(nr, nc, steps + 1)])
        else Ok st
      else Ok st
    else Ok st
  else Ok st.

Fixpoint bfs_loop (fuel : nat) (grid : Grid) (ice : IceTime) (R C : Z)
    (visited : Visited) (q : list Entry) : result (option Z) :=
  match fuel with
  | O => OutOfFuel
  | S fuel' =>
      match q with
      | [] => Ok None
      | (r, c, steps) :: q' =>
          if pos_eqb (r, c) (0, C - 1) then Ok (Some steps)
          else
            let* (visited', q'') :=
              for_each directions (try_enter grid ice R C r c steps) (visited, q') in
            bfs_loop fuel' grid ice R C visited' q''
      end
  end.

(** The loop ends within [loop_bound] iterations ([bfs_loop_terminates]). *)
Definition find_shortest_safe_steps (grid : Grid) (ice_time : IceTime)
  : result (option Z) :=
  let* (R, C) := dims grid in
  let visited := replicate (Z.to_nat R) (replicate (Z.to_nat C) false) in
  let* visited := set2 visited 0 0 true in
  bfs_loop (loop_bound R C) grid ice_time R C visited [(0, 0, 0)].

(** ** [generate_balanced_ice] *)

(** [while True] from a given interval; [fuel] bounds the retries. *)
Fixpoint calibrate (fuel : nat) (grid : Grid) (max_steps interval : Z) (g : Random)
  : result (IceTime * Z * Random) :=
  match fuel with
  | O => OutOfFuel
  | S fuel' =>
      let* (ice_time, g') := compute_ice_times grid interval g in
      let* shortest := find_shortest_safe_steps grid ice_time in
      match shortest with
      | Some s =>
          if s <? max_steps then Ok (ice_time, interval, g')
          else calibrate fuel' grid max_steps (interval + 1) g'
      | None => calibrate fuel' grid max_steps (interval + 1) g'
      end
  end.

Definition generate_balanced_ice (fuel : nat) (grid : Grid) (max_steps : Z)
    (g : Random) : result (IceTime * Z * Random) :=
  calibrate fuel grid max_steps 2 g.

Definition default_max_steps : Z := 15.

(** ** The Streamlit script

    The session state that the script keeps between runs, the
    initialisation block and the handler of a pressed direction button.
    [st.stop()] and [st.experimental_rerun()] end the run of the script:
    no statement after them is executed. *)

Record Session : Type := mkSession {
  s_grid : Grid;
  s_ice_time : IceTime;
  s_interval : Z;
  pos_r : Z;
  pos_c : Z;
  current_steps : Z;
  game_over : bool;
  won : bool
}.

(** How the initialisation block ends: with a session to play, or with
    the error [Frozen at start! Game over.] *)
Inductive startup : Type :=
| Playing (s : Session)
| FrozenAtStart.

(** [if 'ice_time' not in st.session_state: ...] followed by
    [if 'pos_r' not in st.session_state: ...] *)
Definition initialise (fuel : nat) (g : Random) : result (startup * Random) :=
  let* (grid, g1) := generate_grid g in
  let* (ice_time, interval, g2) :=
    generate_balanced_ice fuel grid default_max_steps g1 in
  let* t00 := get2 ice_time 0 0 in
  if ftime_le t00 0 then Ok (FrozenAtStart, g2)
  else Ok (Playing (mkSession grid ice_time interval 0 0 0 false false), g2).

(** The body of [for d, pressed in buttons.items()] for the pressed
    button, whose direction is [d]; it runs in the branch of the script
    where the game is neither won nor over. *)
Definition press (d : Z * Z) (st : Session) : result Session :=
  let* (R, C) := dims (s_grid st) in
  let nr := pos_r st + d.1 in
  let nc := pos_c st + d.2 in
  if in_bounds R C nr nc then
    let* ch := get2 (s_grid st) nr nc in
    if negb (Ascii.eqb ch "#") then
      let new_steps := current_steps st + 1 in
      let* it := get2 (s_ice_time st) nr nc in
      if ge_ftime new_steps it then
        Ok (mkSession (s_grid st) (s_ice_time st) (s_interval st)
              (pos_r st) (pos_c st) (current_steps st) true (won st))
      else
        Ok (mkSession (s_grid st) (s_ice_time st) (s_interval st)
              nr nc new_steps (game_over st)
              (if pos_eqb (nr, nc) (0, C - 1) then true else won st))
    else Ok st
  else Ok st.

(** The run of the script when the button of direction [d] is pressed
    (and Restart is not): the handler runs only in the branch where the
    game is neither won nor over. *)
Definition on_press (d : Z * Z) (st : Session) : result Session :=
  if won st then Ok st
  else if game_over st then Ok st
  else press d st.

(** A sequence of pressed buttons, one run of the script each. *)
Definition play (ds : list (Z * Z)) (st : Session) : result Session :=
  for_each ds on_press st.

(** The session after [if 'pos_r' not in st.session_state: ...]. *)
Definition new_session (grid : Grid) (ice_time : IceTime) (interval : Z) : Session :=
  mkSession grid ice_time interval 0 0 0 false false.

(** ** [render_grid] *)

Definition dquote : string := String "034"%char EmptyString.

(** The literal ['<td class="cls">txt</td>']. *)
Definition td (cls txt : string) : string :=
  "<td class=" +:+ dquote +:+ cls +:+ dquote +:+ ">" +:+ txt +:+ "</td>".

Definition td_player : string := td "player" "P".
Definition td_exit : string := td "exit" "E".
Definition td_wall : string := td "wall" "".
Definition td_ice : string := td "ice" "".
Definition td_empty : string := td "empty" "".

Definition html_head : string := "
    <style>
      table { border-collapse: collapse; margin:20px auto;}
      td { width:40px; height:40px; text-align:center; font-size:24px; border:1px solid #ccc;}
      .wall { background:#333; color:#333;}
      .empty{ background:#fff;}
      .ice  { background:lightblue;}
      .player{background:green; color:#fff;}
      .exit{background:yellow;color:#000;}
    </style><table>".

(** The [if]/[elif] chain that picks the markup of the cell [(r, c)]. *)
Definition cell_markup (grid : Grid) (ice_time : IceTime) (C current_steps
    pos_r pos_c r c : Z) : result string :=
  if pos_eqb (r, c) (pos_r, pos_c) then Ok td_player
  else if pos_eqb (r, c) (0, C - 1) then Ok td_exit
  else
    let* ch := get2 grid r c in
    if Ascii.eqb ch "#" then Ok td_wall
    else
      let* it := get2 ice_time r c in
      if ftime_le it current_steps then Ok td_ice else Ok td_empty.

Definition render_row (grid : Grid) (ice_time : IceTime) (C current_steps
    pos_r pos_c r : Z) (html : string) : result string :=
  let* html :=
    for_each (range C)
      (λ c html,
        let* cell := cell_markup grid ice_time C current_steps pos_r pos_c r c in
        Ok (html +:+ cell))
      (html +:+ "<tr>") in
  Ok (html +:+ "</tr>").

Definition render_grid (grid : Grid) (ice_time : IceTime) (current_steps
    pos_r pos_c : Z) : result string :=
  let* (R, C) := dims grid in
  let* html :=
    for_each (range R)
      (render_row grid ice_time C current_steps pos_r pos_c) html_head in
  Ok (html +:+ "</table>").

(** ** Specification-level notions *)

(** The entry of a matrix at a position, if there is one. *)
Definition at2 {A : Type} (m : list (list A)) (p : Z * Z) : option A :=
  if (0 <=? p.1) && (0 <=? p.2)
  then match m !! Z.to_nat p.1 with
       | Some row => row !! Z.to_nat p.2
       | None => None
       end
  else None.

(** An [R] by [C] matrix. *)
Definition shape {A : Type} (m : list (list A)) (R C : nat) : Prop :=
  length m = R ∧ Forall (λ row, length row = C) m.

(** How many entries satisfy [P]: the measure of both search loops. *)
Fixpoint count_row {A : Type} (P : A → bool) (l : list A) : nat :=
  match l with
  | [] => O
  | x :: l' => ((if P x then 1 else 0) + count_row P l')%nat
  end.

Fixpoint count_matrix {A : Type} (P : A → bool) (m : list (list A)) : nat :=
  match m with
  | [] => O
  | row :: m' => (count_row P row + count_matrix P m')%nat
  end.

Definition is_inf (f : ftime) : bool :=
  match f with Inf => true | Fin _ => false end.

Definition adjacent (p q : Z * Z) : Prop :=
  ∃ d, d ∈ directions ∧ q = (p.1 + d.1, p.2 + d.2).

Definition is_seed (grid : Grid) (p : Z * Z) : Prop :=
  at2 grid p = Some "I"%char.

(** In the grid and not a wall. *)
Definition open_cell (grid : Grid) (p : Z * Z) : Prop :=
  ∃ ch, at2 grid p = Some ch ∧ ch ≠ "#"%char.

(** [ice_layer grid k p]: a chain of [k] moves through cells that are
    not walls leads from some seed to [p]. *)
Fixpoint ice_layer (grid : Grid) (k : nat) (p : Z * Z) : Prop :=
  match k with
  | O => is_seed grid p
  | S k' => open_cell grid p ∧ ∃ p', ice_layer grid k' p' ∧ adjacent p' p
  end.

(** The measure of [while q] in [compute_ice_times]. *)
Definition ice_measure (ice : IceTime) (q : list Entry) : nat :=
  (2 * count_matrix is_inf ice + length q)%nat.

(** The invariant of [while q] in [compute_ice_times], with [lo] the time
    of the entry last taken from the queue: the queue holds entries of
    time [lo] followed by entries of time [lo + iv], and no finite freeze
    time is later. *)
Record ice_inv (grid : Grid) (R C : nat) (iv lo : Z) (ice : IceTime)
    (q : list Entry) : Prop := {
  inv_shape : shape ice R C;
  inv_queue : ∃ q1 q2, q = q1 ++ q2
                ∧ Forall (λ e, entry_time e = lo) q1
                ∧ Forall (λ e, entry_time e = lo + iv) q2;
  inv_bound : ∀ p v, at2 ice p = Some (Fin v) → v ≤ lo + iv;
  inv_entries : ∀ e, e ∈ q →
                at2 ice (entry_cell e) = Some (Fin (entry_time e))
                ∧ ∃ k : nat, entry_time e = Z.of_nat k * iv
                             ∧ ice_layer grid k (entry_cell e);
  inv_seed : ∀ p, is_seed grid p → at2 ice p = Some (Fin 0);
  inv_cells : ∀ p v, at2 ice p = Some (Fin v) → ¬ is_seed grid p →
              (∃ k : nat, (1 ≤ k)%nat ∧ v = Z.of_nat k * iv ∧ ice_layer grid k p)
              ∧ ∃ p', adjacent p' p ∧ at2 ice p' = Some (Fin (v - iv))
}.

(** The invariant of the two loops that enqueue the seeds. *)
Record seed_inv (grid : Grid) (R C : nat) (st : IceTime * list Entry) : Prop := {
  sinv_shape : shape st.1 R C;
  sinv_cells : ∀ p v, at2 st.1 p = Some (Fin v) → v = 0 ∧ is_seed grid p;
  sinv_entries : ∀ e, e ∈ st.2 →
                 entry_time e = 0 ∧ is_seed grid (entry_cell e)
                 ∧ at2 st.1 (entry_cell e) = Some (Fin 0)
}.

Definition seeded (grid : Grid) (p : Z * Z) (st : IceTime * list Entry) : Prop :=
  is_seed grid p → at2 st.1 p = Some (Fin 0).

(** [safe_walk grid ice k p]: the player can stand on [p] after [k] moves
    from the start [(0, 0)], every move entering a neighbouring cell of
    the grid that is not a wall and, unless it is the start cell,
    strictly before the cell freezes. *)
Inductive safe_walk (grid : Grid) (ice : IceTime) : nat → Z * Z → Prop :=
| walk_start : safe_walk grid ice 0 (0, 0)
| walk_step k p q :
    safe_walk grid ice k p →
    adjacent p q →
    open_cell grid q →
    (q = (0, 0) ∨ ∃ f, at2 ice q = Some f ∧ lt_ftime (Z.of_nat (S k)) f = true) →
    safe_walk grid ice (S k) q.

(** The measure of [while q] in [find_shortest_safe_steps]. *)
Definition bfs_measure (visited : Visited) (q : list Entry) : nat :=
  (2 * count_matrix negb visited + length q)%nat.

(** The invariant of [while q] in [find_shortest_safe_steps].  [cur] holds
    the cell being expanded (inside the [for] loop) and is empty
    otherwise; a visited cell outside [cur] and the queue is finished. *)
Record bfs_inv (grid : Grid) (ice : IceTime) (R C : nat) (lo : Z)
    (cur : list (Z * Z)) (visited : Visited) (q : list Entry) : Prop := {
  binv_shape : shape visited R C;
  binv_queue : ∃ q1 q2, q = q1 ++ q2
                 ∧ Forall (λ e, entry_time e = lo) q1
                 ∧ Forall (λ e, entry_time e = lo + 1) q2;
  binv_nodup : NoDup (cur ++ (entry_cell <$> q));
  binv_visited : ∀ p, p ∈ cur ++ (entry_cell <$> q) → at2 visited p = Some true;
  binv_sound : ∀ e, e ∈ q →
               ∃ k : nat, entry_time e = Z.of_nat k
                          ∧ safe_walk grid ice k (entry_cell e);
  binv_start : at2 visited (0, 0) = Some true
               ∧ ∀ e, e ∈ q → entry_cell e = (0, 0) → entry_time e = 0;
  binv_done : ∀ p k w,
      safe_walk grid ice k p → at2 visited p = Some true →
      p ∉ cur ++ (entry_cell <$> q) →
      adjacent p w → open_cell grid w →
      (∃ f, at2 ice w = Some f ∧ lt_ftime (Z.of_nat (S k)) f = true) →
      at2 visited w = Some true
      ∧ ∀ e, e ∈ q → entry_cell e = w → entry_time e ≤ Z.of_nat (S k);
  binv_exit : ∀ p, at2 visited p = Some true →
              p ∉ cur ++ (entry_cell <$> q) → p ≠ (0, Z.of_nat C - 1)
}.

(** The neighbour of [u] in direction [d] has been looked at. *)
Definition edge_done (grid : Grid) (ice : IceTime) (s : Z) (u d : Z * Z)
    (st : Visited * list Entry) : Prop :=
  let w := (u.1 + d.1, u.2 + d.2) in
  open_cell grid w →
  (∃ f, at2 ice w = Some f ∧ lt_ftime (s + 1) f = true) →
  at2 st.1 w = Some true.

(** What [find_shortest_safe_steps] is to return: the least number of
    moves of a safe walk to the exit [(0, C - 1)], or [None] if there is
    no such walk. *)
Definition shortest_safe (grid : Grid) (ice : IceTime) (C : nat)
    (res : option Z) : Prop :=
  match res with
  | Some n => ∃ k : nat, n = Z.of_nat k
                ∧ safe_walk grid ice k (0, Z.of_nat C - 1)
                ∧ ∀ k', safe_walk grid ice k' (0, Z.of_nat C - 1) → (k ≤ k')%nat
  | None => ∀ k, ¬ safe_walk grid ice k (0, Z.of_nat C - 1)
  end.

(** [clear_walk grid k p]: [k] moves lead from the start to [p] through
    cells of the grid that are neither walls nor ice seeds (the freeze
    times are not looked at). *)
Inductive clear_walk (grid : Grid) : nat → Z * Z → Prop :=
| clear_start : clear_walk grid 0 (0, 0)
| clear_step k p q :
    clear_walk grid k p →
    adjacent p q →
    open_cell grid q →
    ¬ is_seed grid q →
    clear_walk grid (S k) q.

(** The cells that [generate_grid] may turn into seeds: the value of
    [possible_positions] before it is shuffled. *)
Definition candidate_cells : list (Z * Z) :=
  Eval vm_compute in
    match possible_positions base_grid 10 10 with
    | Ok l => l
    | _ => []
    end.

(** What the specification asks of a seed position, as a test. *)
Definition seed_ok (p : Z * Z) : bool :=
  (0 <=? p.1) && (p.1 <? 10) && (10 / 2 <=? p.2) && (p.2 <=? 10 - 1)
  && match at2 base_grid p with
     | Some ch => Ascii.eqb ch "."
     | None => false
     end
  && negb (pos_eqb p (0, 0)) && negb (pos_eqb p (0, 10 - 1))
  && negb ((p.1 <? 3) && (p.2 <? 3)).

(** The positions of the cells of a grid that hold [ch], row by row. *)
Definition cells_with (ch : ascii) (grid : Grid) : list (Z * Z) :=
  concat (imap (λ r row,
            omap (λ x, x)
              (imap (λ c x, if Ascii.eqb x ch
                            then Some (Z.of_nat r, Z.of_nat c) else None) row))
          grid).

(** The number of moves between two cells when nothing is in the way. *)
Definition manhattan (p q : Z * Z) : Z := Z.abs (p.1 - q.1) + Z.abs (p.2 - q.2).

(** Every cell freezes in [ice'] no earlier than in [ice]. *)
Definition freezes_later (ice ice' : IceTime) : Prop :=
  ∀ p f, at2 ice p = Some f →
    ∃ f', at2 ice' p = Some f' ∧ ∀ a, lt_ftime a f = true → lt_ftime a f' = true.

(** Every cell next to the exit is outside the grid, a wall or a seed. *)
Definition exit_sealed (grid : Grid) (C : nat) : Prop :=
  ∀ p, adjacent p (0, Z.of_nat C - 1) → ¬ open_cell grid p ∨ is_seed grid p.

(** Draws for which [generate_grid] puts a seed on (1,9), the only
    neighbour of the exit that is not a wall. *)
Definition unlucky_draws : Random :=
  mkRandom (λ n, if (n =? 40)%nat then O else (47 - n)%nat) O.

Definition unlucky_grid : Grid :=
  Eval vm_compute in
    match generate_grid unlucky_draws with
    | Ok (grid, _) => grid
    | _ => []
    end.

(** The invariant of the play: the session keeps its grid and matrix,
    the player stands at the end of a safe walk of as many moves as were
    counted, on a cell that is not yet frozen, and the game is won only
    on the exit. *)
Definition play_inv (grid : Grid) (ice : IceTime) (C : Z) (st : Session) : Prop :=
  s_grid st = grid ∧ s_ice_time st = ice
  ∧ ∃ k : nat,
      current_steps st = Z.of_nat k
      ∧ safe_walk grid ice k (pos_r st, pos_c st)
      ∧ ((k = O ∧ (pos_r st, pos_c st) = (0, 0))
         ∨ ∃ f, at2 ice (pos_r st, pos_c st) = Some f
                ∧ lt_ftime (Z.of_nat k) f = true)
      ∧ (won st = true → (pos_r st, pos_c st) = (0, C - 1)).

(** The ice has spread from the seed [s] in every direction but, at
    most, one: each other neighbour is outside the grid, a wall, or
    frozen no later than [iv]. *)
Definition spread_done (grid : Grid) (ice : IceTime) (iv : Z) (s : Z * Z) : Prop :=
  ∃ skipped, ∀ d, d ∈ directions → d ≠ skipped →
    ¬ open_cell grid (s.1 + d.1, s.2 + d.2)
    ∨ ∃ v, at2 ice (s.1 + d.1, s.2 + d.2) = Some (Fin v) ∧ v ≤ iv.

(** Every seed is still in the queue, or the ice has spread from it. *)
Definition seeds_served (grid : Grid) (iv : Z) (ice : IceTime) (q : list Entry)
  : Prop :=
  ∀ s, is_seed grid s → s ∈ entry_cell <$> q ∨ spread_done grid ice iv s.

(** Sample inputs. *)
Definition no_ice (R C : nat) : IceTime := replicate R (replicate C Inf).

Definition zero_draws : Random := mkRandom (λ _, O) O.

(** A test for [clear_walk]: the cells of [path] continue a walk that
    stands on [p]. *)
Definition cell_clear (grid : Grid) (q : Z * Z) : bool :=
  match at2 grid q with
  | Some ch => negb (Ascii.eqb ch "#") && negb (Ascii.eqb ch "I")
  | None => false
  end.

Definition adjacentb (p q : Z * Z) : bool :=
  existsb (λ d, pos_eqb q (p.1 + d.1, p.2 + d.2)) directions.

Fixpoint clear_path (grid : Grid) (p : Z * Z) (path : list (Z * Z)) : bool :=
  match path with
  | [] => true
  | q :: rest => adjacentb p q && cell_clear grid q && clear_path grid q rest
  end.

Fixpoint walk_end (p : Z * Z) (path : list (Z * Z)) : Z * Z :=
  match path with
  | [] => p
  | q :: rest => walk_end q rest
  end.

(** The grid that [generate_grid] builds when every draw is 0. *)
Definition sample_grid : Grid :=
  Eval vm_compute in
    match generate_grid zero_draws with
    | Ok (grid, _) => grid
    | _ => []
    end.

(** The freeze times [compute_ice_times] gives the sample grid at
    interval 8 when every draw is 0. *)
Definition sample_ice : IceTime :=
  Eval vm_compute in
    match compute_ice_times sample_grid 8 zero_draws with
    | Ok (ice, _) => ice
    | _ => []
    end.

(** One row of sixteen open cells. *)
Definition corridor : Grid := [replicate 16 "."%char].

(** * Proofs *)

(** ** The result monad *)

Lemma bind_Ok {A B : Type} (m : result A) (k : A → result B) (b : B) :
  bind m k = Ok b ↔ ∃ a, m = Ok a ∧ k a = Ok b.
Proof.
  destruct m as [a| |]; simpl; split.
  - eauto.
  - intros (a' & [= <-] & H); exact H.
  - discriminate.
  - intros (? & ? & _); discriminate.
  - discriminate.
  - intros (? & ? & _); discriminate.
Qed.

Lemma for_each_app {A S : Type} (l1 l2 : list A) (body : A → S → result S) (s : S) :
  for_each (l1 ++ l2) body s = let* s' := for_each l1 body s in for_each l2 body s'.
Proof.
  revert s; induction l1 as [|a l1 IH]; intros s; simpl; [done|].
  destruct (body a s); simpl; auto.
Qed.

(** A loop that never fails. *)
Lemma for_each_total {A S : Type} (I : S → Prop) (l : list A)
    (body : A → S → result S) (s : S) :
  (∀ a t, a ∈ l → I t → ∃ t', body a t = Ok t' ∧ I t') →
  I s → ∃ s', for_each l body s = Ok s' ∧ I s'.
Proof.
  revert s; induction l as [|a l IH]; intros s Hbody Hs; simpl.
  - eauto.
  - destruct (Hbody a s) as (t & Ht & HIt); [left|done|].
    rewrite Ht; simpl. apply IH; [|done].
    intros b u Hb; apply Hbody; by right.
Qed.

(** A loop whose iteration for [a] establishes [Q (f a)], where every
    iteration keeps what was established. *)
Lemma for_each_establish {A S X : Type} (I : S → Prop) (Q : X → S → Prop)
    (f : A → X) (l : list A) (body : A → S → result S) (s : S) :
  (∀ a t, a ∈ l → I t →
     ∃ t', body a t = Ok t' ∧ I t' ∧ Q (f a) t' ∧ ∀ x, Q x t → Q x t') →
  I s →
  ∃ s', for_each l body s = Ok s' ∧ I s'
        ∧ (∀ a, a ∈ l → Q (f a) s') ∧ (∀ x, Q x s → Q x s').
Proof.
  revert s; induction l as [|a l IH]; intros s Hbody Hs; simpl.
  - exists s. split; [done|]. split; [done|]. split; [|done].
    intros a Ha. by apply elem_of_nil in Ha.
  - destruct (Hbody a s) as (t & Ht & HIt & HQ & Hkeep); [left|done|].
    rewrite Ht; simpl.
    destruct (IH t) as (s' & Hs' & HIs' & HQs' & Hkeep'); [|done|].
    { intros b u Hb; apply Hbody; by right. }
    exists s'. split; [done|]. split; [done|]. split.
    + intros b [->|Hb]%elem_of_cons; [by apply Hkeep'|by apply HQs'].
    + intros x Hx. by apply Hkeep', Hkeep.
Qed.

(** A loop whose iterations each add at most [b] to a size. *)
Lemma for_each_grow {A S : Type} (size : S → nat) (b : nat) (l : list A)
    (body : A → S → result S) (s s' : S) :
  (∀ a t t', a ∈ l → body a t = Ok t' → (size t' ≤ size t + b)%nat) →
  for_each l body s = Ok s' → (size s' ≤ size s + b * length l)%nat.
Proof.
  revert s; induction l as [|a l IH]; intros s Hbody; simpl.
  - intros [= <-]. lia.
  - rewrite bind_Ok; intros (t & Ht & Hrest).
    apply IH in Hrest; [|intros c u u' Hc; apply Hbody; by right].
    pose proof (Hbody a s t ltac:(left) Ht). lia.
Qed.

(** ** Lists and matrices *)

Lemma getitem_Ok {A : Type} (l : list A) i x :
  0 ≤ i → getitem l i = Ok x ↔ l !! Z.to_nat i = Some x.
Proof.
  intros Hi. unfold getitem, norm_index.
  destruct (Z.ltb_spec i 0) as [|_]; [lia|].
  destruct (Z.ltb_spec i 0) as [|_]; [lia|].
  destruct (l !! Z.to_nat i); split; congruence.
Qed.

Lemma setitem_Ok {A : Type} (l : list A) i x l' :
  0 ≤ i →
  setitem l i x = Ok l' ↔ (Z.to_nat i < length l)%nat ∧ l' = <[Z.to_nat i := x]> l.
Proof.
  intros Hi. unfold setitem, norm_index.
  destruct (Z.ltb_spec i 0) as [|_]; [lia|].
  destruct (Z.ltb_spec i 0) as [|_]; [lia|].
  destruct (Nat.ltb_spec (Z.to_nat i) (length l)); split.
  - intros [= <-]; done.
  - intros [_ ->]; done.
  - discriminate.
  - intros [? _]; lia.
Qed.

Section matrices.
Context {A : Type}.
Implicit Types (l row : list A) (m : list (list A)) (p : Z * Z).

Lemma get2_Ok m r c x :
  0 ≤ r → 0 ≤ c → get2 m r c = Ok x ↔ at2 m (r, c) = Some x.
Proof.
  intros Hr Hc. unfold get2, at2; simpl.
  destruct (Z.leb_spec 0 r); [|lia]. destruct (Z.leb_spec 0 c); [|lia]. simpl.
  rewrite bind_Ok. split.
  - intros (row & H1 & H2). apply getitem_Ok in H1, H2; [|done..].
    by rewrite H1.
  - destruct (m !! Z.to_nat r) as [row|] eqn:E; [|done].
    intros H2. exists row. by rewrite !getitem_Ok.
Qed.

Lemma at2_Some_nonneg m p x : at2 m p = Some x → 0 ≤ p.1 ∧ 0 ≤ p.2.
Proof.
  unfold at2. destruct (Z.leb_spec 0 p.1), (Z.leb_spec 0 p.2); simpl; try done.
Qed.

Lemma set2_Ok m r c x m' :
  0 ≤ r → 0 ≤ c →
  set2 m r c x = Ok m' ↔
  ∃ row y, m !! Z.to_nat r = Some row ∧ row !! Z.to_nat c = Some y
           ∧ m' = <[Z.to_nat r := <[Z.to_nat c := x]> row]> m.
Proof.
  intros Hr Hc. unfold set2. rewrite bind_Ok. split.
  - intros (row & H1 & H2). apply getitem_Ok in H1; [|done].
    apply bind_Ok in H2 as (row' & H2 & H3).
    apply setitem_Ok in H2 as [H2 ->]; [|done].
    apply setitem_Ok in H3 as [H3 ->]; [|done].
    apply lookup_lt_is_Some in H2 as [y Hy]. eauto.
  - intros (row & y & H1 & H2 & ->). exists row. split; [by apply getitem_Ok|].
    apply bind_Ok. exists (<[Z.to_nat c := x]> row). split.
    + apply setitem_Ok; [done|]. split; [|done]. by eapply lookup_lt_Some.
    + apply setitem_Ok; [done|]. split; [|done]. by eapply lookup_lt_Some.
Qed.

Lemma at2_insert m r c row y x p :
  0 ≤ r → 0 ≤ c →
  m !! Z.to_nat r = Some row → row !! Z.to_nat c = Some y →
  at2 (<[Z.to_nat r := <[Z.to_nat c := x]> row]> m) p
  = if decide (p = (r, c)) then Some x else at2 m p.
Proof.
  intros Hr Hc Hrow Hy. destruct p as [r' c']. unfold at2; simpl.
  destruct (Z.leb_spec 0 r'), (Z.leb_spec 0 c'); simpl;
    try (case_decide as E; [injection E; lia|done]).
  destruct (decide (Z.to_nat r' = Z.to_nat r)) as [Er|Er].
  - rewrite Er, list_lookup_insert_eq by (by eapply lookup_lt_Some).
    rewrite Hrow.
    destruct (decide (Z.to_nat c' = Z.to_nat c)) as [Ec|Ec].
    + rewrite Ec, list_lookup_insert_eq by (by eapply lookup_lt_Some).
      rewrite decide_True; [done|]. f_equal; lia.
    + rewrite list_lookup_insert_ne by done.
      rewrite decide_False; [done|]. intros [= -> ->]; done.
  - rewrite list_lookup_insert_ne by done.
    rewrite decide_False; [done|]. intros [= -> ->]; done.
Qed.

Lemma shape_insert m R C r c row x :
  shape m R C → m !! r = Some row → shape (<[r := <[c := x]> row]> m) R C.
Proof.
  intros [HR HC] Hrow. split; [by rewrite length_insert|].
  apply Forall_insert; [done|]. rewrite length_insert.
  eapply (Forall_lookup_1 _ _ _ _ HC Hrow).
Qed.

Lemma at2_in_bounds m R C p :
  shape m R C →
  is_Some (at2 m p) ↔ in_bounds (Z.of_nat R) (Z.of_nat C) p.1 p.2 = true.
Proof.
  intros [HR HC]. unfold at2, in_bounds.
  destruct (Z.leb_spec 0 p.1), (Z.leb_spec 0 p.2); simpl;
    rewrite ?andb_false_r; try (split; [intros [? [=]]|done]).
  destruct (Z.ltb_spec p.1 (Z.of_nat R)); simpl.
  - destruct (lookup_lt_is_Some_2 m (Z.to_nat p.1)) as [row Hrow]; [lia|].
    rewrite Hrow. pose proof (Forall_lookup_1 _ _ _ _ HC Hrow) as Hlen.
    simpl in Hlen. destruct (Z.ltb_spec p.2 (Z.of_nat C)).
    + split; [done|]. intros _. apply lookup_lt_is_Some_2. lia.
    + split; [|done]. intros Hs. apply lookup_lt_is_Some_1 in Hs. lia.
  - rewrite lookup_ge_None_2 by lia. split; [intros [? [=]]|done].
Qed.

Lemma shape_replicate (R C : nat) (x : A) : shape (replicate R (replicate C x)) R C.
Proof.
  split; [by rewrite length_replicate|].
  apply Forall_replicate. by rewrite length_replicate.
Qed.

Lemma at2_replicate (R C : nat) (x y : A) p :
  at2 (replicate R (replicate C x)) p = Some y → y = x.
Proof.
  unfold at2. destruct (_ && _); [|done].
  destruct (replicate R _ !! _) as [row|] eqn:E; [|done].
  apply lookup_replicate in E as [-> _].
  intros H. by apply lookup_replicate in H as [-> _].
Qed.

Lemma dims_shape m R C :
  shape m R C → (0 < R)%nat → dims m = Ok (Z.of_nat R, Z.of_nat C).
Proof.
  intros [HR HC] Hpos. unfold dims.
  destruct m as [|row m]; simpl in *; [lia|].
  apply Forall_cons in HC as [<- _]. by rewrite HR.
Qed.

(** Counting. *)
Lemma count_row_insert (P : A → bool) l i x y :
  l !! i = Some y →
  (count_row P (<[i := x]> l) + (if P y then 1 else 0)
   = count_row P l + (if P x then 1 else 0))%nat.
Proof.
  revert i; induction l as [|z l IH]; intros [|i] Hi; simplify_eq/=; [lia|].
  specialize (IH _ Hi). lia.
Qed.

Lemma count_matrix_insert (P : A → bool) m i row row' :
  m !! i = Some row →
  (count_matrix P (<[i := row']> m) + count_row P row
   = count_matrix P m + count_row P row')%nat.
Proof.
  revert i; induction m as [|z m IH]; intros [|i] Hi; simplify_eq/=; [lia|].
  specialize (IH _ Hi). lia.
Qed.

Lemma count_row_le (P : A → bool) l : (count_row P l ≤ length l)%nat.
Proof. induction l as [|x l IH]; simpl; [lia|]. destruct (P x); lia. Qed.

Lemma count_matrix_le (P : A → bool) m R C :
  shape m R C → (count_matrix P m ≤ R * C)%nat.
Proof.
  intros [<- HC]. induction HC as [|row m Hrow _ IH]; simpl; [lia|].
  pose proof (count_row_le P row). lia.
Qed.

(** What [m[r][c] = x] does to the matrix, in one statement. *)
Lemma set2_spec (P : A → bool) m R C r c x m' :
  shape m R C → 0 ≤ r → 0 ≤ c → set2 m r c x = Ok m' →
  shape m' R C
  ∧ (∀ p, at2 m' p = if decide (p = (r, c)) then Some x else at2 m p)
  ∧ ∃ y, at2 m (r, c) = Some y
         ∧ (count_matrix P m' + (if P y then 1 else 0)
            = count_matrix P m + (if P x then 1 else 0))%nat.
Proof.
  intros Hsh Hr Hc Hset.
  apply set2_Ok in Hset as (row & y & Hrow & Hy & ->); [|done..].
  split; [by apply shape_insert|]. split.
  - intros p. by eapply at2_insert.
  - exists y. split.
    + unfold at2; simpl. destruct (Z.leb_spec 0 r), (Z.leb_spec 0 c); try lia.
      simpl. by rewrite Hrow.
    + pose proof (count_matrix_insert P m _ row (<[Z.to_nat c := x]> row) Hrow).
      pose proof (count_row_insert P row _ x y Hy). lia.
Qed.

Lemma set2_total m R C r c x :
  shape m R C → in_bounds (Z.of_nat R) (Z.of_nat C) r c = true →
  ∃ m', set2 m r c x = Ok m'.
Proof.
  intros Hsh Hin.
  pose proof (proj2 (at2_in_bounds m R C (r, c) Hsh) Hin) as [y Hy].
  pose proof (at2_Some_nonneg _ _ _ Hy) as [Hr Hc]; simpl in *.
  unfold at2 in Hy; simpl in Hy.
  destruct (Z.leb_spec 0 r), (Z.leb_spec 0 c); try lia. simpl in Hy.
  destruct (m !! Z.to_nat r) as [row|] eqn:Hrow; [|done].
  eexists. apply set2_Ok; eauto.
Qed.

Lemma get2_total m R C r c :
  shape m R C → in_bounds (Z.of_nat R) (Z.of_nat C) r c = true →
  ∃ x, get2 m r c = Ok x ∧ at2 m (r, c) = Some x.
Proof.
  intros Hsh Hin.
  pose proof (proj2 (at2_in_bounds m R C (r, c) Hsh) Hin) as [y Hy].
  pose proof (at2_Some_nonneg _ _ _ Hy) as [Hr Hc]; simpl in *.
  exists y. split; [by apply get2_Ok|done].
Qed.
End matrices.

Lemma in_bounds_spec R C r c :
  in_bounds R C r c = true ↔ 0 ≤ r < R ∧ 0 ≤ c < C.
Proof. unfold in_bounds. rewrite !andb_true_iff. lia. Qed.

Lemma elem_of_range n i : i ∈ range n ↔ 0 ≤ i < n.
Proof.
  unfold range. rewrite list_elem_of_fmap. setoid_rewrite elem_of_seq. split.
  - intros (k & -> & Hk). lia.
  - intros Hi. exists (Z.to_nat i). lia.
Qed.


(** ** The random source: [shuffle] permutes *)

Lemma swap_perm {A : Type} (x : list A) i j : swap x i j ≡ₚ x.
Proof.
  unfold swap.
  destruct (x !! i) as [a|] eqn:Hi; [|done].
  destruct (x !! j) as [b|] eqn:Hj; [|done].
  pose proof (lookup_lt_Some _ _ _ Hi) as Hli.
  pose proof (lookup_lt_Some _ _ _ Hj) as Hlj.
  apply Permutation_inj. split; [by rewrite !length_insert|].
  exists (λ k, if decide (k = j) then i else if decide (k = i) then j else k).
  split.
  - intros k1 k2. repeat case_decide; intros; subst; congruence.
  - intros k. destruct (decide (k = j)) as [->|Hkj].
    + rewrite list_lookup_insert_eq by (by rewrite length_insert). done.
    + rewrite list_lookup_insert_ne by done.
      destruct (decide (k = i)) as [->|Hki].
      * rewrite list_lookup_insert_eq by done. done.
      * by rewrite list_lookup_insert_ne.
Qed.

Lemma shuffle_from_perm {A : Type} i (x : list A) g : (shuffle_from i x g).1 ≡ₚ x.
Proof.
  revert x g; induction i as [|i IH]; intros x g; simpl; [done|].
  rewrite IH. apply swap_perm.
Qed.

Lemma shuffle_perm {A : Type} (x : list A) g : (shuffle x g).1 ≡ₚ x.
Proof. apply shuffle_from_perm. Qed.

Lemma randint_range a b g : (a ≤ b → a ≤ (randint a b g).1 ≤ b)%nat.
Proof.
  intros Hab. unfold randint, randbelow; simpl.
  pose proof (Nat.mod_upper_bound (draws g (cursor g)) (b - a + 1)). lia.
Qed.

Lemma NoDup_directions : NoDup directions.
Proof. apply NoDup_ListNoDup. repeat constructor; simpl; intuition congruence. Qed.

(** The attempted directions are the first three of a permutation of
    the four. *)
Lemma attempted_dirs_perm g :
  ∃ a b c d, (attempted_dirs g).1 = [a; b; c] ∧ [a; b; c; d] ≡ₚ directions.
Proof.
  unfold attempted_dirs.
  pose proof (shuffle_perm directions g) as Hperm.
  destruct (shuffle directions g) as [dirs g1]; simpl in Hperm.
  pose proof (randint_range 3 3 g1) as Hk.
  destruct (randint 3 3 g1) as [k g2]; simpl in *.
  assert (k = 3%nat) as -> by lia.
  pose proof (Permutation_length Hperm) as Hlen.
  destruct dirs as [|a [|b [|c [|d [|? ?]]]]]; try discriminate Hlen.
  exists a, b, c, d. done.
Qed.

Lemma attempted_dirs_spec g :
  length (attempted_dirs g).1 = 3%nat
  ∧ NoDup (attempted_dirs g).1
  ∧ (attempted_dirs g).1 ⊆ directions.
Proof.
  destruct (attempted_dirs_perm g) as (a & b & c & d & -> & Hperm).
  split; [done|].
  assert (NoDup [a; b; c; d]) as Hnd by (rewrite Hperm; apply NoDup_directions).
  split.
  - eapply sublist_NoDup; [exact Hnd|]. apply (sublist_take [a; b; c; d] 3).
  - intros x Hx. rewrite <- Hperm.
    change [a; b; c] with (take 3 [a; b; c; d]) in Hx.
    apply elem_of_take in Hx as (i & Hi & _). by eapply list_elem_of_lookup_2.
Qed.

(** ** [compute_ice_times]: invariant and termination *)

Section ice.
Variables (grid : Grid) (R C : nat) (iv : Z).
Hypothesis grid_shape : shape grid R C.
Hypothesis iv_nonneg : 0 ≤ iv.

Local Abbreviation ice_inv := (ice_inv grid R C iv).
Local Abbreviation seed_inv := (seed_inv grid R C).
Local Abbreviation seeded := (seeded grid).

Lemma relax_inv t r c (k : nat) d ice q :
  ice_inv t ice q → d ∈ directions →
  t = Z.of_nat k * iv → ice_layer grid k (r, c) →
  at2 ice (r, c) = Some (Fin t) →
  ∃ st', relax grid (Z.of_nat R) (Z.of_nat C) iv r c t d (ice, q) = Ok st'
         ∧ ice_inv t st'.1 st'.2
         ∧ at2 st'.1 (r, c) = Some (Fin t)
         ∧ (ice_measure st'.1 st'.2 ≤ ice_measure ice q)%nat.
Proof.
  intros Hinv Hd Ht Hlayer Hrc. unfold relax. cbn [fst snd].
  destruct (in_bounds _ _ _ _) eqn:Hin; [|by exists (ice, q)].
  destruct (get2_total grid R C _ _ grid_shape Hin) as (ch & -> & Hch).
  cbn [bind]. destruct (Ascii.eqb_spec ch "#") as [->|Hnw]; cbn [negb];
    [by exists (ice, q)|].
  destruct (get2_total ice R C _ _ (inv_shape _ _ _ _ _ _ _ Hinv) Hin) as (it & -> & Hit).
  cbn [bind]. destruct it as [v|]; cbn [ftime_gt lt_ftime].
  - pose proof (inv_bound _ _ _ _ _ _ _ Hinv _ _ Hit).
    destruct (Z.ltb_spec (t + iv) v); [lia|]. by exists (ice, q).
  - destruct (set2_total ice R C _ _ (Fin (t + iv)) (inv_shape _ _ _ _ _ _ _ Hinv) Hin)
      as [ice' Hset].
    rewrite Hset. cbn [bind]. eexists; split; [done|]. cbn [fst snd].
    apply in_bounds_spec in Hin as [[Hr0 _] [Hc0 _]].
    destruct (set2_spec is_inf ice R C _ _ _ _ (inv_shape _ _ _ _ _ _ _ Hinv) Hr0 Hc0 Hset)
      as (Hsh' & Hat' & y & Hy & Hcount).
    rewrite Hit in Hy; injection Hy as <-. cbn in Hcount.
    assert (∀ p v, at2 ice p = Some (Fin v) → at2 ice' p = Some (Fin v)) as Hkeep.
    { intros p v Hv. rewrite Hat'. case_decide; [subst p; congruence|done]. }
    split; [|split; [by apply Hkeep|
                     unfold ice_measure; rewrite length_app; simpl; lia]].
    assert (ice_layer grid (S k) (r + d.1, c + d.2)) as Hnew.
    { split; [by exists ch|]. exists (r, c). split; [done|]. by exists d. }
    constructor.
    + done.
    + destruct (inv_queue _ _ _ _ _ _ _ Hinv) as (q1 & q2 & -> & H1 & H2).
      exists q1, (q2 ++ [(r + d.1, c + d.2, t + iv)]).
      split; [by rewrite app_assoc|]. split; [done|].
      apply Forall_app. split; [done|]. by apply Forall_singleton.
    + intros p v. rewrite Hat'. case_decide.
      * intros [= <-]. lia.
      * apply (inv_bound _ _ _ _ _ _ _ Hinv).
    + intros e [He|He%list_elem_of_singleton]%elem_of_app.
      * destruct (inv_entries _ _ _ _ _ _ _ Hinv e He) as [Hv Hk].
        split; [by apply Hkeep|done].
      * subst e. unfold entry_time, entry_cell; simpl. split.
        -- rewrite Hat'. by rewrite decide_True.
        -- exists (S k). split; [lia|done].
    + intros p Hp. rewrite Hat'. case_decide as E.
      * subst p. rewrite (inv_seed _ _ _ _ _ _ _ Hinv _ Hp) in Hit. done.
      * by apply (inv_seed _ _ _ _ _ _ _ Hinv).
    + intros p v. rewrite Hat'. case_decide as E.
      * intros [= <-] _. subst p. split.
        -- exists (S k). split; [lia|]. split; [lia|done].
        -- exists (r, c). split; [by exists d|]. apply Hkeep.
           by replace (t + iv - iv) with t by lia.
      * intros Hv Hns. destruct (inv_cells _ _ _ _ _ _ _ Hinv p v Hv Hns)
          as [Hk (p' & Hadj & Hp')].
        split; [done|]. exists p'. split; [done|by apply Hkeep].
Qed.

Lemma ice_inv_pop lo e ice q :
  ice_inv lo ice (e :: q) →
  ice_inv (entry_time e) ice q
  ∧ at2 ice (entry_cell e) = Some (Fin (entry_time e))
  ∧ ∃ k : nat, entry_time e = Z.of_nat k * iv ∧ ice_layer grid k (entry_cell e).
Proof.
  intros Hinv. split; [|apply (inv_entries _ _ _ _ _ _ _ Hinv); left].
  destruct (inv_queue _ _ _ _ _ _ _ Hinv) as (q1 & q2 & Hq & H1 & H2).
  assert (entry_time e = lo ∨ entry_time e = lo + iv) as Hte.
  { destruct q1 as [|e1 q1]; simpl in Hq.
    - subst q2. apply Forall_cons in H2 as [? _]. by right.
    - injection Hq as <- _. apply Forall_cons in H1 as [? _]. by left. }
  constructor.
  - apply (inv_shape _ _ _ _ _ _ _ Hinv).
  - destruct q1 as [|e1 q1]; simpl in Hq.
    + subst q2. apply Forall_cons in H2 as [He H2].
      exists q, []. rewrite app_nil_r. split; [done|]. split; [|done].
      eapply Forall_impl; [exact H2|]. simpl. intros; congruence.
    + injection Hq as <- ->. apply Forall_cons in H1 as [He H1].
      exists q1, q2. rewrite He. done.
  - intros p v Hv. pose proof (inv_bound _ _ _ _ _ _ _ Hinv _ _ Hv). lia.
  - intros e' He'. apply (inv_entries _ _ _ _ _ _ _ Hinv). by right.
  - apply (inv_seed _ _ _ _ _ _ _ Hinv).
  - apply (inv_cells _ _ _ _ _ _ _ Hinv).
Qed.

Lemma expand_inv lo e ice q g :
  ice_inv lo ice (e :: q) →
  ∃ ice' q' g', expand grid (Z.of_nat R) (Z.of_nat C) iv e ice q g = Ok (ice', q', g')
                ∧ ice_inv (entry_time e) ice' q'
                ∧ (ice_measure ice' q' < ice_measure ice (e :: q))%nat.
Proof.
  intros Hinv. apply ice_inv_pop in Hinv as (Hinv & Hrc & k & Hk & Hlayer).
  destruct e as [[r c] t]. unfold entry_time, entry_cell in Hinv, Hk, Hlayer, Hrc.
  cbn [fst snd] in Hinv, Hk, Hlayer, Hrc. unfold expand.
  pose proof (attempted_dirs_spec g) as (_ & _ & Hsub).
  destruct (attempted_dirs g) as [dirs g']; simpl in Hsub.
  destruct (for_each_total
              (λ st, ice_inv t st.1 st.2
                     ∧ at2 st.1 (r, c) = Some (Fin t)
                     ∧ (ice_measure st.1 st.2 ≤ ice_measure ice q)%nat)
              dirs (relax grid (Z.of_nat R) (Z.of_nat C) iv r c t) (ice, q))
    as ([ice' q'] & Hrun & Hinv' & _ & Hm).
  - intros d [ice1 q1] Hd (Hi & Hrc1 & Hm); simpl in *.
    destruct (relax_inv t r c k d ice1 q1 Hi (Hsub _ Hd) Hk Hlayer Hrc1)
      as (st' & Hst' & Hi' & Hrc' & Hm').
    exists st'. split; [done|]. split; [done|]. split; [done|lia].
  - simpl. split; [done|]. split; [done|lia].
  - rewrite Hrun. simpl. exists ice', q', g'. split; [done|]. split; [done|].
    simpl in Hm. unfold ice_measure in *. simpl. lia.
Qed.

(** The loop ends, and the invariant holds when it does. *)
Lemma ice_loop_terminates fuel lo ice q g :
  ice_inv lo ice q → (ice_measure ice q < fuel)%nat →
  ∃ ice' g', ice_loop fuel grid (Z.of_nat R) (Z.of_nat C) iv ice q g = Ok (ice', g')
             ∧ ∃ lo', ice_inv lo' ice' [].
Proof.
  revert lo ice q g. induction fuel as [|fuel IH]; intros lo ice q g Hinv Hm; [lia|].
  simpl. destruct q as [|e q].
  - exists ice, g. split; [done|]. by exists lo.
  - destruct (expand_inv lo e ice q g Hinv) as (ice' & q' & g' & -> & Hinv' & Hm').
    simpl. eapply IH; [exact Hinv'|lia].
Qed.

Lemma seed_cell_inv r c st :
  in_bounds (Z.of_nat R) (Z.of_nat C) r c = true → seed_inv st →
  ∃ st', seed_cell grid r c st = Ok st' ∧ seed_inv st'
         ∧ seeded (r, c) st' ∧ (∀ p, seeded p st → seeded p st')
         ∧ (length st'.2 ≤ length st.2 + 1)%nat.
Proof.
  intros Hin Hinv. unfold seed_cell.
  destruct (get2_total grid R C _ _ grid_shape Hin) as (ch & -> & Hch).
  cbn [bind]. destruct (Ascii.eqb_spec ch "I") as [->|Hns].
  - destruct (set2_total st.1 R C _ _ (Fin 0) (sinv_shape _ _ _ _ Hinv) Hin)
      as [ice' Hset].
    rewrite Hset. cbn [bind]. eexists; split; [done|].
    apply in_bounds_spec in Hin as [[Hr0 _] [Hc0 _]].
    destruct (set2_spec is_inf st.1 R C _ _ _ _ (sinv_shape _ _ _ _ Hinv) Hr0 Hc0 Hset)
      as (Hsh' & Hat' & _).
    split; [constructor; cbn [fst snd]|split; [|split]].
    + done.
    + intros p v. rewrite Hat'. case_decide as E.
      * intros [= <-]. by subst p.
      * apply (sinv_cells _ _ _ _ Hinv).
    + intros e [He|He%list_elem_of_singleton]%elem_of_app.
      * destruct (sinv_entries _ _ _ _ Hinv e He) as (? & ? & Hv).
        split; [done|]. split; [done|]. rewrite Hat'. by case_decide.
      * subst e. split; [done|]. split; [done|].
        unfold entry_cell; simpl. rewrite Hat'. by rewrite decide_True.
    + intros _. cbn [fst]. rewrite Hat'. by rewrite decide_True.
    + intros p Hp Hs. cbn [fst]. rewrite Hat'. case_decide; [done|by apply Hp].
    + cbn [snd]. rewrite length_app. simpl. lia.
  - exists st. split; [done|]. split; [done|]. split; [|split; [done|lia]].
    intros Hs. unfold is_seed in Hs. congruence.
Qed.

Lemma seed_cell_length r c st st' :
  seed_cell grid r c st = Ok st' → (length st'.2 ≤ length st.2 + 1)%nat.
Proof.
  unfold seed_cell. rewrite bind_Ok. intros (ch & _ & H).
  destruct (Ascii.eqb ch "I").
  - apply bind_Ok in H as (ice' & _ & [= <-]). simpl. rewrite length_app. simpl. lia.
  - injection H as <-. lia.
Qed.

Lemma seed_all_inv st :
  seed_inv st →
  ∃ st', seed_all grid (Z.of_nat R) (Z.of_nat C) st = Ok st' ∧ seed_inv st'
         ∧ (∀ p, is_seed grid p → at2 st'.1 p = Some (Fin 0))
         ∧ (length st'.2 ≤ length st.2 + C * R)%nat.
Proof.
  intros Hinv. unfold seed_all.
  set (inner := λ r st, for_each (range (Z.of_nat C))
                          (λ c st, seed_cell grid r c st) st).
  assert (∀ r t, r ∈ range (Z.of_nat R) → seed_inv t →
            ∃ t', inner r t = Ok t' ∧ seed_inv t'
                  ∧ (∀ c, c ∈ range (Z.of_nat C) → seeded (r, c) t')
                  ∧ (∀ p, seeded p t → seeded p t')) as Hinner.
  { intros r t Hr Ht. unfold inner.
    apply (for_each_establish seed_inv seeded (λ c, (r, c))); [|done].
    intros c u Hc Hu. apply elem_of_range in Hr, Hc.
    destruct (seed_cell_inv r c u) as (u' & ? & ? & ? & ? & _); [|done|eauto].
    apply in_bounds_spec. lia. }
  destruct (for_each_establish seed_inv
              (λ r st, ∀ c, c ∈ range (Z.of_nat C) → seeded (r, c) st)
              (λ r, r) (range (Z.of_nat R)) inner st)
    as (st' & Hrun & Hinv' & Hall & _); [|done|].
  { intros r t Hr Ht. destruct (Hinner r t Hr Ht) as (t' & ? & ? & ? & Hkeep).
    exists t'. split; [done|]. split; [done|]. split; [done|].
    intros r' Hr' c Hc. by apply Hkeep, Hr'. }
  exists st'. split; [done|]. split; [done|]. split.
  - intros [r c] Hp.
    assert (in_bounds (Z.of_nat R) (Z.of_nat C) r c = true) as Hin.
    { apply (at2_in_bounds grid R C (r, c) grid_shape). by eexists. }
    apply in_bounds_spec in Hin as [Hr Hc].
    apply Hall; [by apply elem_of_range|by apply elem_of_range|done].
  - assert (length (range (Z.of_nat R)) = R) as HlenR.
    { unfold range. by rewrite length_fmap, length_seq, Nat2Z.id. }
    assert (length (range (Z.of_nat C)) = C) as HlenC.
    { unfold range. by rewrite length_fmap, length_seq, Nat2Z.id. }
    replace (C * R)%nat with (C * length (range (Z.of_nat R)))%nat
      by (f_equal; exact HlenR).
    apply (for_each_grow (λ st, length st.2) C _ inner); [|done].
    intros r t t' Hr Ht'. unfold inner in Ht'.
    pose proof (for_each_grow (λ st : IceTime * list Entry, length st.2) 1 _ _ _ _
                  (λ c u u' _ Hu', seed_cell_length r c u u' Hu') Ht') as Hg.
    rewrite HlenC in Hg. lia.
Qed.

(** [compute_ice_times] returns, and its result satisfies the invariant
    with an empty queue. *)
Lemma compute_ice_times_inv g :
  (0 < R)%nat →
  ∃ ice g', compute_ice_times grid iv g = Ok (ice, g') ∧ ∃ lo, ice_inv lo ice [].
Proof.
  intros HR. unfold compute_ice_times.
  rewrite (dims_shape grid R C grid_shape HR). cbn [bind]. rewrite !Nat2Z.id.
  destruct (seed_all_inv (replicate R (replicate C Inf), []))
    as ([ice0 q0] & -> & Hs & Hseeds & Hlen).
  { constructor; cbn [fst snd].
    - apply shape_replicate.
    - intros p v Hv. by apply at2_replicate in Hv.
    - intros e He. by apply elem_of_nil in He. }
  cbn [bind fst snd] in *.
  apply (ice_loop_terminates _ 0).
  - constructor.
    + apply (sinv_shape _ _ _ _ Hs).
    + exists q0, []. rewrite app_nil_r. split; [done|]. split; [|done].
      apply Forall_forall. intros e He. by apply (sinv_entries _ _ _ _ Hs).
    + intros p v Hv. apply (sinv_cells _ _ _ _ Hs) in Hv as [-> _]. lia.
    + intros e He. apply (sinv_entries _ _ _ _ Hs) in He as (He1 & He2 & He3).
      split; [by rewrite He1|]. exists O. split; [lia|done].
    + done.
    + intros p v Hv Hns. by apply (sinv_cells _ _ _ _ Hs) in Hv as [_ ?].
  - unfold ice_measure, loop_bound.
    pose proof (count_matrix_le is_inf ice0 R C (sinv_shape _ _ _ _ Hs)).
    rewrite <- Nat2Z.inj_mul, Nat2Z.id. simpl in Hlen. lia.
Qed.
End ice.

(** ** [find_shortest_safe_steps]: invariant, termination, minimality *)

Lemma pos_eqb_spec p q : pos_eqb p q = true ↔ p = q.
Proof.
  destruct p, q. unfold pos_eqb; simpl. rewrite andb_true_iff, !Z.eqb_eq.
  split; [intros [-> ->]; done|intros [= -> ->]; done].
Qed.

Section bfs.
Variables (grid : Grid) (ice : IceTime) (R C : nat).
Hypothesis grid_shape : shape grid R C.
Hypothesis ice_shape : shape ice R C.

Local Abbreviation bfs_inv := (bfs_inv grid ice R C).
Local Abbreviation safe_walk := (safe_walk grid ice).
Local Abbreviation edge := (edge_done grid ice).
Local Abbreviation enter := (try_enter grid ice (Z.of_nat R) (Z.of_nat C)).

Lemma open_cell_in_bounds p :
  open_cell grid p → in_bounds (Z.of_nat R) (Z.of_nat C) p.1 p.2 = true.
Proof.
  intros (ch & Hch & _). apply (at2_in_bounds grid R C p grid_shape). by eexists.
Qed.

Lemma try_enter_inv s u (k0 : nat) d visited q :
  bfs_inv s [u] visited q → d ∈ directions →
  s = Z.of_nat k0 → safe_walk k0 u →
  ∃ st', enter u.1 u.2 s d (visited, q) = Ok st'
         ∧ bfs_inv s [u] st'.1 st'.2
         ∧ edge s u d st'
         ∧ (∀ d', edge s u d' (visited, q) → edge s u d' st')
         ∧ (bfs_measure st'.1 st'.2 ≤ bfs_measure visited q)%nat.
Proof.
  intros Hinv Hd Hs Hwalk. unfold try_enter. cbn [fst snd].
  unfold edge_done.
  set (nr := u.1 + d.1). set (nc := u.2 + d.2).
  assert (∀ P : Prop, P → ∃ st', Ok (visited, q) = Ok st'
            ∧ bfs_inv s [u] st'.1 st'.2 ∧ P
            ∧ (∀ d', edge s u d' (visited, q) → edge s u d' (visited, q))
            ∧ (bfs_measure visited q ≤ bfs_measure visited q)%nat) as Hsame.
  { intros P HP. exists (visited, q). done. }
  destruct (in_bounds _ _ _ _) eqn:Hin.
  2:{ destruct (Hsame (open_cell grid (nr, nc) →
                       (∃ f, at2 ice (nr, nc) = Some f ∧ lt_ftime (s + 1) f = true) →
                       at2 visited (nr, nc) = Some true))
        as (st' & [= <-] & ?); [|eauto].
      intros Hopen _. apply open_cell_in_bounds in Hopen. simpl in Hopen. congruence. }
  destruct (get2_total visited R C _ _ (binv_shape _ _ _ _ _ _ _ _ Hinv) Hin)
    as (seen & -> & Hseen).
  cbn [bind]. destruct seen; cbn [negb].
  { destruct (Hsame (open_cell grid (nr, nc) →
                     (∃ f, at2 ice (nr, nc) = Some f ∧ lt_ftime (s + 1) f = true) →
                     at2 visited (nr, nc) = Some true))
      as (st' & [= <-] & ?); [|eauto].
    done. }
  destruct (get2_total grid R C _ _ grid_shape Hin) as (ch & -> & Hch).
  cbn [bind]. destruct (Ascii.eqb_spec ch "#") as [->|Hnw]; cbn [negb].
  { destruct (Hsame (open_cell grid (nr, nc) →
                     (∃ f, at2 ice (nr, nc) = Some f ∧ lt_ftime (s + 1) f = true) →
                     at2 visited (nr, nc) = Some true))
      as (st' & [= <-] & ?); [|eauto].
    intros (ch' & Hch' & Hne) _. congruence. }
  destruct (get2_total ice R C _ _ ice_shape Hin) as (it & -> & Hit).
  cbn [bind]. destruct (lt_ftime (s + 1) it) eqn:Hlt.
  2:{ destruct (Hsame (open_cell grid (nr, nc) →
                       (∃ f, at2 ice (nr, nc) = Some f ∧ lt_ftime (s + 1) f = true) →
                       at2 visited (nr, nc) = Some true))
        as (st' & [= <-] & ?); [|eauto].
      intros _ (f & Hf & Hlt'). congruence. }
  destruct (set2_total visited R C _ _ true (binv_shape _ _ _ _ _ _ _ _ Hinv) Hin)
    as [visited' Hset].
  rewrite Hset. cbn [bind]. eexists; split; [done|]. cbn [fst snd].
  apply in_bounds_spec in Hin as [[Hr0 _] [Hc0 _]].
  destruct (set2_spec negb visited R C _ _ _ _ (binv_shape _ _ _ _ _ _ _ _ Hinv)
              Hr0 Hc0 Hset) as (Hsh' & Hat' & y & Hy & Hcount).
  rewrite Hseen in Hy; injection Hy as <-. cbn in Hcount.
  assert ((nr, nc) ∉ [u] ++ (entry_cell <$> q)) as Hfresh.
  { intros Hw. apply (binv_visited _ _ _ _ _ _ _ _ Hinv) in Hw. congruence. }
  assert (open_cell grid (nr, nc)) as Hopen by (by exists ch).
  assert (safe_walk (S k0) (nr, nc)) as Hwalk'.
  { eapply walk_step; [exact Hwalk|by exists d|done|].
    right. exists it. split; [done|]. by rewrite Nat2Z.inj_succ, <- Hs. }
  assert (∀ e : Entry, e ∈ [(nr, nc, s + 1)] → e = (nr, nc, s + 1)) as Hsing.
  { intros e He. by apply list_elem_of_singleton in He. }
  split; [|split; [|split]].
  - constructor.
    + done.
    + destruct (binv_queue _ _ _ _ _ _ _ _ Hinv) as (q1 & q2 & -> & H1 & H2).
      exists q1, (q2 ++ [(nr, nc, s + 1)]).
      split; [by rewrite app_assoc|]. split; [done|].
      apply Forall_app. split; [done|]. by apply Forall_singleton.
    + rewrite fmap_app, app_assoc. apply NoDup_app.
      split; [apply (binv_nodup _ _ _ _ _ _ _ _ Hinv)|]. split.
      * intros p Hp Hp'. apply list_elem_of_singleton in Hp'.
        unfold entry_cell in Hp'; simpl in Hp'. by subst p.
      * apply NoDup_singleton.
    + intros p Hp. rewrite Hat'. case_decide; [done|].
      apply (binv_visited _ _ _ _ _ _ _ _ Hinv).
      rewrite fmap_app, app_assoc in Hp.
      apply elem_of_app in Hp as [Hp|Hp%list_elem_of_singleton]; [done|].
      unfold entry_cell in Hp; simpl in Hp. done.
    + intros e [He|He%Hsing]%elem_of_app.
      * by apply (binv_sound _ _ _ _ _ _ _ _ Hinv).
      * subst e. exists (S k0). unfold entry_time, entry_cell; simpl.
        split; [lia|done].
    + destruct (binv_start _ _ _ _ _ _ _ _ Hinv) as [Hst1 Hst2]. split.
      * rewrite Hat'. case_decide; done.
      * intros e [He|He%Hsing]%elem_of_app Hcell; [by apply Hst2|].
        subst e. unfold entry_cell in Hcell; simpl in Hcell. congruence.
    + intros p k w' Hp Hvis Hnin Hadj Hopen' Hfr.
      rewrite fmap_app, app_assoc in Hnin.
      apply not_elem_of_app in Hnin as [Hnin Hpw].
      rewrite Hat' in Hvis. case_decide as E.
      { subst p. exfalso. apply Hpw. by apply list_elem_of_singleton. }
      destruct (binv_done _ _ _ _ _ _ _ _ Hinv p k w' Hp Hvis Hnin Hadj Hopen' Hfr)
        as [Hv Hb].
      split; [rewrite Hat'; case_decide; done|].
      intros e [He|He%Hsing]%elem_of_app Hcell; [by apply Hb|].
      subst e. unfold entry_cell in Hcell; simpl in Hcell. congruence.
    + intros p Hvis Hnin. rewrite fmap_app, app_assoc in Hnin.
      apply not_elem_of_app in Hnin as [Hnin Hpw].
      rewrite Hat' in Hvis. case_decide as E.
      { subst p. exfalso. apply Hpw. by apply list_elem_of_singleton. }
      by apply (binv_exit _ _ _ _ _ _ _ _ Hinv).
  - intros _ _. rewrite Hat'. by rewrite decide_True.
  - intros d' Hd' Ho Hf. cbn [fst]. rewrite Hat'. case_decide; [done|].
    by apply Hd'.
  - unfold bfs_measure. rewrite length_app. simpl. lia.
Qed.
Lemma lt_ftime_mono a b f : a ≤ b → lt_ftime b f = true → lt_ftime a f = true.
Proof. destruct f as [t|]; simpl; [|done]. rewrite !Z.ltb_lt. lia. Qed.

Lemma bfs_queue_times lo cur visited q e :
  bfs_inv lo cur visited q → e ∈ q → lo ≤ entry_time e ≤ lo + 1.
Proof.
  intros Hinv He.
  destruct (binv_queue _ _ _ _ _ _ _ _ Hinv) as (q1 & q2 & -> & H1 & H2).
  rewrite Forall_forall in H1, H2.
  apply elem_of_app in He as [He|He]; [apply H1 in He|apply H2 in He]; lia.
Qed.

Lemma bfs_head_time lo cur visited e q :
  bfs_inv lo cur visited (e :: q) →
  (∀ e', e' ∈ e :: q → entry_time e ≤ entry_time e' ≤ entry_time e + 1).
Proof.
  intros Hinv e' He'.
  destruct (binv_queue _ _ _ _ _ _ _ _ Hinv) as (q1 & q2 & Hq & H1 & H2).
  rewrite Forall_forall in H1, H2.
  destruct q1 as [|e1 q1]; simpl in Hq.
  - subst q2. pose proof (H2 e ltac:(left)). pose proof (H2 e' He'). lia.
  - injection Hq as <- ->. pose proof (H1 e ltac:(left)).
    apply elem_of_cons in He' as [->|He']; [lia|].
    apply elem_of_app in He' as [He'|He'].
    + pose proof (H1 e' ltac:(by right)). lia.
    + pose proof (H2 e' He'). lia.
Qed.

(** Every safe walk ends on a finished cell, or an entry that is not
    later than the walk is still in the queue. *)
Lemma bfs_good lo visited q k p :
  bfs_inv lo [] visited q → safe_walk k p →
  (at2 visited p = Some true ∧ p ∉ entry_cell <$> q)
  ∨ (∃ e, e ∈ q ∧ entry_time e ≤ Z.of_nat k).
Proof.
  intros Hinv Hwalk.
  assert (∀ k' : nat,
            (at2 visited (0, 0) = Some true ∧ (0, 0) ∉ entry_cell <$> q)
            ∨ (∃ e, e ∈ q ∧ entry_time e ≤ Z.of_nat k')) as Hstart.
  { intros k'. destruct (binv_start _ _ _ _ _ _ _ _ Hinv) as [Hv Hq].
    destruct (decide ((0, 0) ∈ entry_cell <$> q)) as [Hin|Hnin]; [|by left].
    apply list_elem_of_fmap in Hin as (e & He & Hin). right. exists e.
    split; [done|]. rewrite (Hq e Hin); [lia|done]. }
  induction Hwalk as [|k p w Hwalk IH Hadj Hopen Hfr]; [apply Hstart|].
  destruct IH as [[Hv Hnin]|(e & He & Hle)]; [|right; exists e; split; [done|lia]].
  destruct Hfr as [->|Hfr]; [apply Hstart|].
  destruct (binv_done _ _ _ _ _ _ _ _ Hinv p k w Hwalk Hv Hnin Hadj Hopen Hfr)
    as [Hvw Hb].
  destruct (decide (w ∈ entry_cell <$> q)) as [Hin|Hnin']; [|by left].
  apply list_elem_of_fmap in Hin as (e & He & Hin). right. exists e.
  split; [done|]. by apply Hb.
Qed.

Lemma bfs_inv_pop lo visited e q :
  bfs_inv lo [] visited (e :: q) →
  bfs_inv (entry_time e) [entry_cell e] visited q.
Proof.
  intros Hinv. constructor.
  - apply (binv_shape _ _ _ _ _ _ _ _ Hinv).
  - destruct (binv_queue _ _ _ _ _ _ _ _ Hinv) as (q1 & q2 & Hq & H1 & H2).
    destruct q1 as [|e1 q1]; simpl in Hq.
    + subst q2. apply Forall_cons in H2 as [He H2].
      exists q, []. rewrite app_nil_r. split; [done|]. split; [|done].
      eapply Forall_impl; [exact H2|]. simpl. intros; congruence.
    + injection Hq as <- ->. apply Forall_cons in H1 as [He H1].
      exists q1, q2. rewrite He. done.
  - apply (binv_nodup _ _ _ _ _ _ _ _ Hinv).
  - apply (binv_visited _ _ _ _ _ _ _ _ Hinv).
  - intros e' He'. apply (binv_sound _ _ _ _ _ _ _ _ Hinv). by right.
  - destruct (binv_start _ _ _ _ _ _ _ _ Hinv) as [Hv Hq]. split; [done|].
    intros e' He'. apply Hq. by right.
  - intros p k w Hp Hvis Hnin Hadj Hopen Hfr.
    destruct (binv_done _ _ _ _ _ _ _ _ Hinv p k w Hp Hvis Hnin Hadj Hopen Hfr)
      as [Hv Hb].
    split; [done|]. intros e' He'. apply Hb. by right.
  - apply (binv_exit _ _ _ _ _ _ _ _ Hinv).
Qed.

Lemma bfs_inv_finish s u visited q :
  bfs_inv s [u] visited q →
  (∀ d, d ∈ directions → edge s u d (visited, q)) →
  (∀ k, safe_walk k u → s ≤ Z.of_nat k) →
  u ≠ (0, Z.of_nat C - 1) →
  bfs_inv s [] visited q.
Proof.
  intros Hinv Hedges Hmin Hne. constructor.
  - apply (binv_shape _ _ _ _ _ _ _ _ Hinv).
  - apply (binv_queue _ _ _ _ _ _ _ _ Hinv).
  - pose proof (binv_nodup _ _ _ _ _ _ _ _ Hinv) as Hnd. simpl in *.
    by apply NoDup_cons in Hnd as [_ ?].
  - intros p Hp. apply (binv_visited _ _ _ _ _ _ _ _ Hinv). simpl in *. by right.
  - apply (binv_sound _ _ _ _ _ _ _ _ Hinv).
  - apply (binv_start _ _ _ _ _ _ _ _ Hinv).
  - intros p k w Hp Hvis Hnin Hadj Hopen Hfr. simpl in Hnin.
    destruct (decide (p = u)) as [->|Hpu].
    + pose proof (Hmin k Hp) as Hsk. destruct Hadj as (d & Hd & ->). split.
      * apply (Hedges d Hd Hopen). destruct Hfr as (f & Hf & Hlt).
        exists f. split; [done|]. eapply lt_ftime_mono; [|exact Hlt]. lia.
      * intros e He _. pose proof (bfs_queue_times _ _ _ _ _ Hinv He). lia.
    + apply (binv_done _ _ _ _ _ _ _ _ Hinv p k w); try done.
      simpl. intros [->|?]%elem_of_cons; done.
  - intros p Hvis Hnin. simpl in Hnin.
    destruct (decide (p = u)) as [->|Hpu]; [done|].
    apply (binv_exit _ _ _ _ _ _ _ _ Hinv); [done|].
    simpl. intros [->|?]%elem_of_cons; done.
Qed.

(** One iteration of [while q] that does not return. *)
Lemma bfs_expand lo visited r c s q :
  bfs_inv lo [] visited ((r, c, s) :: q) →
  (r, c) ≠ (0, Z.of_nat C - 1) →
  ∃ visited' q',
    for_each directions (enter r c s) (visited, q) = Ok (visited', q')
    ∧ bfs_inv s [] visited' q'
    ∧ (bfs_measure visited' q' < bfs_measure visited ((r, c, s) :: q))%nat.
Proof.
  intros Hinv Hne.
  destruct (binv_sound _ _ _ _ _ _ _ _ Hinv (r, c, s) ltac:(left)) as (k0 & Hk0 & Hw0).
  unfold entry_time, entry_cell in Hk0, Hw0. cbn [fst snd] in Hk0, Hw0.
  assert (∀ k, safe_walk k (r, c) → s ≤ Z.of_nat k) as Hmin.
  { intros k Hk. destruct (bfs_good _ _ _ _ _ Hinv Hk) as [[_ Hnin]|(e & He & Hle)].
    - exfalso. apply Hnin. rewrite fmap_cons. by left.
    - pose proof (bfs_head_time _ _ _ _ _ Hinv e He) as Hh.
      unfold entry_time in Hh at 1 3. simpl in Hh. lia. }
  pose proof (bfs_inv_pop _ _ _ _ Hinv) as Hpop.
  unfold entry_time, entry_cell in Hpop. cbn [fst snd] in Hpop.
  destruct (for_each_establish
              (λ st, bfs_inv s [(r, c)] st.1 st.2
                     ∧ (bfs_measure st.1 st.2 ≤ bfs_measure visited q)%nat)
              (edge s (r, c)) (λ d, d) directions
              (enter r c s) (visited, q))
    as ([visited' q'] & Hrun & [Hinv' Hm] & Hedges & _).
  - intros d [v1 q1] Hd [Hi Hm]. cbn [fst snd] in *.
    destruct (try_enter_inv s (r, c) k0 d v1 q1 Hi Hd Hk0 Hw0)
      as (st' & Hst' & Hi' & He' & Hkeep & Hm').
    exists st'. split; [done|]. split; [split; [done|lia]|]. split; done.
  - split; [done|]. cbn [fst snd]. lia.
  - exists visited', q'. split; [done|]. cbn [fst snd] in *. split.
    + by apply (bfs_inv_finish s (r, c)).
    + unfold bfs_measure in *. simpl. lia.
Qed.

(** The loop ends and returns what it should. *)
Lemma bfs_loop_terminates fuel lo visited q :
  bfs_inv lo [] visited q → (bfs_measure visited q < fuel)%nat →
  ∃ res, bfs_loop fuel grid ice (Z.of_nat R) (Z.of_nat C) visited q = Ok res
         ∧ shortest_safe grid ice C res.
Proof.
  revert lo visited q. induction fuel as [|fuel IH]; intros lo visited q Hinv Hm; [lia|].
  cbn [bfs_loop]. destruct q as [|[[r c] s] q].
  - exists None. split; [done|]. intros k Hk.
    destruct (bfs_good _ _ _ _ _ Hinv Hk) as [[Hv Hnin]|(e & He & _)].
    + by apply (binv_exit _ _ _ _ _ _ _ _ Hinv _ Hv).
    + by apply elem_of_nil in He.
  - destruct (pos_eqb (r, c) (0, Z.of_nat C - 1)) eqn:Hexit.
    + apply pos_eqb_spec in Hexit. exists (Some s). split; [done|].
      destruct (binv_sound _ _ _ _ _ _ _ _ Hinv (r, c, s) ltac:(left))
        as (k0 & Hk0 & Hw0).
      unfold entry_time, entry_cell in Hk0, Hw0. cbn [fst snd] in Hk0, Hw0.
      exists k0. split; [done|]. split; [by rewrite <- Hexit|].
      intros k' Hk'. rewrite <- Hexit in Hk'.
      destruct (bfs_good _ _ _ _ _ Hinv Hk') as [[_ Hnin]|(e & He & Hle)].
      * exfalso. apply Hnin. rewrite fmap_cons. by left.
      * pose proof (bfs_head_time _ _ _ _ _ Hinv e He) as Hh.
        unfold entry_time in Hh at 1 3. simpl in Hh. lia.
    + assert ((r, c) ≠ (0, Z.of_nat C - 1)) as Hne.
      { intros E. apply pos_eqb_spec in E. congruence. }
      destruct (bfs_expand lo visited r c s q Hinv Hne) as (v' & q' & Hrun & Hi & Hm').
      replace (for_each directions _ _) with (Ok (v', q')) by (symmetry; exact Hrun).
      cbn [bind]. eapply IH; [exact Hi|].
      unfold bfs_measure in *. simpl in Hm, Hm'. lia.
Qed.

(** [find_shortest_safe_steps] returns the least number of moves of a
    safe walk to the exit, or [None] when there is none. *)
Lemma find_shortest_safe_steps_spec :
  (0 < R)%nat → (0 < C)%nat →
  ∃ res, find_shortest_safe_steps grid ice = Ok res ∧ shortest_safe grid ice C res.
Proof.
  intros HR HC. unfold find_shortest_safe_steps.
  rewrite (dims_shape grid R C grid_shape HR). cbn [bind]. rewrite !Nat2Z.id.
  pose proof (shape_replicate R C false) as Hsh.
  assert (in_bounds (Z.of_nat R) (Z.of_nat C) 0 0 = true) as Hin
    by (apply in_bounds_spec; lia).
  destruct (set2_total _ R C 0 0 true Hsh Hin) as [visited Hset].
  rewrite Hset. cbn [bind].
  destruct (set2_spec negb _ R C 0 0 true visited Hsh ltac:(lia) ltac:(lia) Hset)
    as (Hsh' & Hat' & y & Hy & Hcount).
  apply at2_replicate in Hy as ->. cbn in Hcount.
  assert (∀ p, at2 visited p = Some true → p = (0, 0)) as Honly.
  { intros p. rewrite Hat'. case_decide; [done|].
    intros Hp. by apply at2_replicate in Hp. }
  apply (bfs_loop_terminates _ 0).
  - constructor.
    + done.
    + exists [(0, 0, 0)], []. repeat split; [by apply Forall_singleton|done].
    + simpl. apply NoDup_singleton.
    + simpl. intros p Hp%list_elem_of_singleton. subst p. rewrite Hat'.
      by rewrite decide_True.
    + intros e He%list_elem_of_singleton. subst e. exists O.
      split; [done|]. apply walk_start.
    + split; [rewrite Hat'; by rewrite decide_True|].
      intros e He%list_elem_of_singleton. by subst e.
    + intros p k w _ Hv Hnin. apply Honly in Hv. subst p.
      exfalso. apply Hnin. simpl. by left.
    + intros p Hv Hnin. apply Honly in Hv. subst p.
      exfalso. apply Hnin. simpl. by left.
  - unfold bfs_measure, loop_bound.
    pose proof (count_matrix_le negb _ R C Hsh).
    rewrite <- Nat2Z.inj_mul, Nat2Z.id. simpl. lia.
Qed.
End bfs.

(** ** [generate_balanced_ice]: what an accepted matrix is *)

Lemma compute_ice_times_result grid R C iv g ice g' :
  shape grid R C → (0 < R)%nat → 0 ≤ iv →
  compute_ice_times grid iv g = Ok (ice, g') →
  ∃ lo, ice_inv grid R C iv lo ice [].
Proof.
  intros Hsh HR Hiv Hrun.
  destruct (compute_ice_times_inv grid R C iv Hsh Hiv g HR) as (ice0 & g0 & Hrun0 & Hinv).
  rewrite Hrun in Hrun0. by injection Hrun0 as -> _.
Qed.

Lemma calibrate_Ok fuel grid max_steps i g ice iv g' :
  calibrate fuel grid max_steps i g = Ok (ice, iv, g') →
  i ≤ iv
  ∧ (∃ g0, compute_ice_times grid iv g0 = Ok (ice, g'))
  ∧ ∃ s, find_shortest_safe_steps grid ice = Ok (Some s) ∧ s < max_steps.
Proof.
  revert i g. induction fuel as [|fuel IH]; intros i g; [discriminate|].
  cbn [calibrate]. rewrite bind_Ok. intros ([ice1 g1] & Hice & Hrest).
  apply bind_Ok in Hrest as (shortest & Hbfs & Hrest).
  assert (calibrate fuel grid max_steps (i + 1) g1 = Ok (ice, iv, g') →
          i ≤ iv
          ∧ (∃ g0, compute_ice_times grid iv g0 = Ok (ice, g'))
          ∧ ∃ s, find_shortest_safe_steps grid ice = Ok (Some s) ∧ s < max_steps)
    as Hnext.
  { intros H. apply IH in H as (? & ? & ?). split; [lia|done]. }
  destruct shortest as [s|]; [|by apply Hnext].
  destruct (Z.ltb_spec s max_steps); [|by apply Hnext].
  injection Hrest as <- <- <-. split; [lia|]. split; [by exists g|by exists s].
Qed.

(** ** [generate_grid]: where the seeds go *)

Lemma range_S (n : nat) : range (Z.of_nat (S n)) = range (Z.of_nat n) ++ [Z.of_nat n].
Proof. unfold range. rewrite !Nat2Z.id, seq_S, fmap_app. done. Qed.

Lemma place_all (R C : nat) (sh : list (Z * Z)) (n : nat) (grid0 : Grid) :
  shape grid0 R C →
  (∀ p, p ∈ sh → in_bounds (Z.of_nat R) (Z.of_nat C) p.1 p.2 = true) →
  (n ≤ length sh)%nat →
  ∃ grid, for_each (range (Z.of_nat n)) (place_ice sh) grid0 = Ok grid
          ∧ shape grid R C
          ∧ ∀ p, at2 grid p = if decide (p ∈ take n sh) then Some "I"%char
                              else at2 grid0 p.
Proof.
  intros Hsh Hin. induction n as [|n IH]; intros Hn.
  - exists grid0. split; [done|]. split; [done|]. intros p.
    rewrite decide_False; [done|]. simpl. apply not_elem_of_nil.
  - destruct IH as (grid1 & Hrun & Hsh1 & Hat1); [lia|].
    rewrite range_S, for_each_app, Hrun. cbn [bind for_each].
    destruct (lookup_lt_is_Some_2 sh n) as [p Hp]; [lia|].
    unfold place_ice.
    assert (getitem sh (Z.of_nat n) = Ok p) as ->.
    { apply getitem_Ok; [lia|]. by rewrite Nat2Z.id. }
    cbn [bind].
    pose proof (Hin p ltac:(by eapply list_elem_of_lookup_2)) as Hpin.
    destruct (set2_total grid1 R C _ _ "I"%char Hsh1 Hpin) as [grid2 Hset].
    rewrite Hset. cbn [bind]. exists grid2. split; [done|].
    apply in_bounds_spec in Hpin as [[Hr0 _] [Hc0 _]].
    destruct (set2_spec (λ _, true) grid1 R C _ _ _ _ Hsh1 Hr0 Hc0 Hset)
      as (Hsh2 & Hat2 & _).
    split; [done|]. intros q. rewrite Hat2, Hat1.
    rewrite (take_S_r _ _ _ Hp).
    replace (p.1, p.2) with p by (by destruct p).
    destruct (decide (q = p)) as [->|Hqp].
    + rewrite decide_True; [done|]. apply elem_of_app. right. by left.
    + destruct (decide (q ∈ take n sh)) as [Hq|Hq].
      * rewrite decide_True; [done|]. apply elem_of_app. by left.
      * rewrite decide_False; [done|].
        intros [?|?%list_elem_of_singleton]%elem_of_app; done.
Qed.

Lemma possible_positions_base :
  possible_positions base_grid 10 10 = Ok candidate_cells.
Proof. vm_compute. reflexivity. Qed.

Lemma candidate_cells_ok p : p ∈ candidate_cells → seed_ok p = true.
Proof.
  assert (forallb seed_ok candidate_cells = true) as H by (vm_compute; reflexivity).
  rewrite forallb_forall in H. intros Hp. apply H. by apply list_elem_of_In.
Qed.

Lemma seed_ok_spec p :
  seed_ok p = true →
  0 ≤ p.1 < 10 ∧ 10 / 2 ≤ p.2 ≤ 10 - 1
  ∧ at2 base_grid p = Some "."%char
  ∧ p ≠ (0, 0) ∧ p ≠ (0, 10 - 1) ∧ ¬ (p.1 < 3 ∧ p.2 < 3).
Proof.
  unfold seed_ok. rewrite !andb_true_iff, !negb_true_iff.
  intros [[[[[[[H1 H2] H3] H4] H5] H6] H7] H8].
  apply Z.leb_le in H1, H3, H4. apply Z.ltb_lt in H2.
  split; [lia|]. split; [lia|]. split; [|split; [|split]].
  - destruct (at2 base_grid p) as [ch|]; [|done].
    by apply Ascii.eqb_eq in H5 as ->.
  - intros E. apply pos_eqb_spec in E. congruence.
  - intros E. apply pos_eqb_spec in E. congruence.
  - intros [Ha Hb]. apply Z.ltb_lt in Ha, Hb. rewrite Ha, Hb in H8. done.
Qed.

Lemma candidate_cells_NoDup : NoDup candidate_cells.
Proof. apply (bool_decide_unpack (NoDup candidate_cells)). vm_compute. exact I. Qed.

Lemma base_grid_shape : shape base_grid 10 10.
Proof. split; [done|]. repeat constructor. Qed.

Lemma at2_elem {A : Type} (m : list (list A)) p x :
  at2 m p = Some x → ∃ row, row ∈ m ∧ x ∈ row.
Proof.
  unfold at2. destruct (_ && _); [|done].
  destruct (m !! Z.to_nat p.1) as [row|] eqn:Hrow; [|done].
  intros Hx. exists row. split; by eapply list_elem_of_lookup_2.
Qed.

Lemma base_grid_no_seed p : ¬ is_seed base_grid p.
Proof.
  intros (row & Hrow & Hx)%at2_elem.
  assert (forallb (forallb (λ ch, negb (Ascii.eqb ch "I"))) base_grid = true) as H
    by (vm_compute; reflexivity).
  rewrite forallb_forall in H. apply list_elem_of_In, H in Hrow.
  rewrite forallb_forall in Hrow. apply list_elem_of_In, Hrow in Hx.
  by rewrite Ascii.eqb_refl in Hx.
Qed.

(** The grid that [generate_grid] returns is the base grid with ['I']
    written on the first [num_ice] cells of a permutation of the
    candidates. *)
Lemma generate_grid_spec g :
  ∃ grid g' seeds,
    generate_grid g = Ok (grid, g')
    ∧ shape grid 10 10
    ∧ NoDup seeds ∧ (3 ≤ length seeds ≤ 5)%nat
    ∧ (∀ p, p ∈ seeds → p ∈ candidate_cells)
    ∧ ∀ p, at2 grid p = if decide (p ∈ seeds) then Some "I"%char
                        else at2 base_grid p.
Proof.
  unfold generate_grid.
  replace (dims base_grid) with (Ok (10, 10) : result (Z * Z)) by reflexivity.
  cbn [bind].
  pose proof (randint_range 3 5 g ltac:(lia)) as Hn.
  destruct (randint 3 5 g) as [n g1]. cbn [fst] in Hn.
  rewrite possible_positions_base. cbn [bind].
  pose proof (shuffle_perm candidate_cells g1) as Hperm.
  destruct (shuffle candidate_cells g1) as [sh g2]. cbn [fst] in Hperm.
  assert (length sh = 47%nat) as Hlen by (by rewrite (Permutation_length Hperm)).
  rewrite Hlen, Nat.min_l by lia.
  destruct (place_all 10 10 sh n base_grid base_grid_shape) as (grid & Hrun & Hsh & Hat).
  { intros p Hp. rewrite Hperm in Hp.
    apply candidate_cells_ok, seed_ok_spec in Hp as (? & ? & _).
    apply in_bounds_spec. change (10 / 2) with 5 in *. lia. }
  { lia. }
  rewrite Hrun. cbn [bind]. exists grid, g2, (take n sh).
  split; [done|]. split; [done|]. split; [|split; [|split; [|done]]].
  - eapply sublist_NoDup; [|apply sublist_take].
    rewrite Hperm. apply candidate_cells_NoDup.
  - rewrite length_take. lia.
  - intros p Hp. rewrite <- Hperm.
    apply elem_of_take in Hp as (i & Hi & _). by eapply list_elem_of_lookup_2.
Qed.

(** ** Walks that avoid the seeds, and the calibration loop *)

Lemma clear_path_walk grid k p path :
  clear_walk grid k p → clear_path grid p path = true →
  clear_walk grid (k + length path) (walk_end p path).
Proof.
  revert k p. induction path as [|q rest IH]; intros k p Hw Hp; simpl in *.
  - by rewrite Nat.add_0_r.
  - apply andb_prop in Hp as [[Hadj Hc]%andb_prop Hrest].
    assert (clear_walk grid (S k) q) as Hq.
    { unfold cell_clear in Hc. destruct (at2 grid q) as [ch|] eqn:Hch; [|done].
      apply andb_prop in Hc as [Hw1 Hs1].
      eapply clear_step; [exact Hw| | |].
      - unfold adjacentb in Hadj. apply existsb_exists in Hadj as (d & Hd & Heq).
        apply pos_eqb_spec in Heq. exists d. split; [by apply list_elem_of_In|done].
      - exists ch. split; [done|]. intros ->. done.
      - unfold is_seed. rewrite Hch. intros [= ->]. done. }
    specialize (IH (S k) q Hq Hrest).
    replace (k + S (length rest))%nat with (S k + length rest)%nat by lia.
    exact IH.
Qed.

Lemma clear_walk_safe grid R C iv lo ice k p :
  shape grid R C → ice_inv grid R C iv lo ice [] → 0 ≤ iv →
  clear_walk grid k p → Z.of_nat k < iv → safe_walk grid ice k p.
Proof.
  intros Hsh Hinv Hiv Hw. induction Hw as [|k p q Hw IH Hadj Hopen Hns]; intros Hk.
  - apply walk_start.
  - eapply walk_step; [apply IH; lia|done|done|]. right.
    assert (is_Some (at2 ice q)) as [f Hf].
    { apply (at2_in_bounds ice R C q (inv_shape _ _ _ _ _ _ _ Hinv)).
      destruct Hopen as (ch & Hch & _).
      apply (at2_in_bounds grid R C q Hsh). by eexists. }
    exists f. split; [done|]. destruct f as [v|]; [|done]. simpl.
    destruct (inv_cells _ _ _ _ _ _ _ Hinv q v Hf Hns) as [(k' & Hk' & -> & _) _].
    apply Z.ltb_lt. nia.
Qed.

(** From interval [i] on, the loop accepts at interval [k + 1] at the
    latest when a walk of [k < max_steps] moves avoids walls and seeds. *)
Lemma calibrate_accepts grid R C max_steps (k : nat) :
  shape grid R C → (0 < R)%nat → (0 < C)%nat →
  clear_walk grid k (0, Z.of_nat C - 1) → Z.of_nat k < max_steps →
  ∀ fuel i g, 0 ≤ i → (1 ≤ fuel)%nat → Z.of_nat k + 2 - i ≤ Z.of_nat fuel →
  ∃ ice iv g', calibrate fuel grid max_steps i g = Ok (ice, iv, g')
               ∧ i ≤ iv ≤ Z.max i (Z.of_nat k + 1).
Proof.
  intros Hsh HR HC Hclear Hmax.
  induction fuel as [|fuel IH]; intros i g Hi Hf1 Hf; [lia|].
  cbn [calibrate].
  destruct (compute_ice_times_inv grid R C i Hsh Hi g HR) as (ice & g1 & -> & lo & Hinv).
  cbn [bind].
  destruct (find_shortest_safe_steps_spec grid ice R C Hsh
              (inv_shape _ _ _ _ _ _ _ Hinv) HR HC) as (res & -> & Hres).
  cbn [bind].
  assert (Z.of_nat k < i → ∃ s, res = Some s ∧ s < max_steps) as Hlate.
  { intros Hki.
    pose proof (clear_walk_safe grid R C i lo ice k _ Hsh Hinv Hi Hclear Hki) as Hsafe.
    destruct res as [s|]; simpl in Hres.
    - destruct Hres as (k0 & -> & _ & Hmin). exists (Z.of_nat k0).
      split; [done|]. specialize (Hmin k Hsafe). lia.
    - by apply Hres in Hsafe. }
  assert (i ≤ Z.of_nat k →
          ∃ ice' iv g', calibrate fuel grid max_steps (i + 1) g1 = Ok (ice', iv, g')
                        ∧ i ≤ iv ≤ Z.max i (Z.of_nat k + 1)) as Hretry.
  { intros Hik. destruct (IH (i + 1) g1) as (ice' & iv & g' & Hrun & Hiv); [lia..|].
    exists ice', iv, g'. split; [done|lia]. }
  destruct res as [s|].
  - destruct (Z.ltb_spec s max_steps).
    + exists ice, i, g1. split; [done|lia].
    + apply Hretry. destruct (Z.le_gt_cases i (Z.of_nat k)) as [|Hgt]; [done|].
      destruct Hlate as (s' & [= <-] & ?); lia.
  - apply Hretry. destruct (Z.le_gt_cases i (Z.of_nat k)) as [|Hgt]; [done|].
    destruct Hlate as (s' & [=] & ?); lia.
Qed.

Lemma corridor_ice iv g : compute_ice_times corridor iv g = Ok (no_ice 1 16, g).
Proof. reflexivity. Qed.

Lemma corridor_search : find_shortest_safe_steps corridor (no_ice 1 16) = Ok (Some 15).
Proof. vm_compute. reflexivity. Qed.

Lemma corridor_calibrate fuel i g :
  calibrate fuel corridor default_max_steps i g = OutOfFuel.
Proof.
  revert i g. induction fuel as [|fuel IH]; intros i g; [done|].
  cbn [calibrate]. rewrite corridor_ice. cbn [bind].
  rewrite corridor_search. cbn [bind]. apply IH.
Qed.

(** * The properties of the specification *)

(** C1. If [generate_balanced_ice grid max_steps] returns a matrix and an
    interval, then the matrix is the one [compute_ice_times] built for
    that interval, and [find_shortest_safe_steps] on the grid and that
    matrix returns a step count strictly less than [max_steps]. *)
Theorem calibration_postcondition fuel grid max_steps g ice interval g' :
  generate_balanced_ice fuel grid max_steps g = Ok (ice, interval, g') →
  (∃ g0, compute_ice_times grid interval g0 = Ok (ice, g'))
  ∧ ∃ s, find_shortest_safe_steps grid ice = Ok (Some s) ∧ s < max_steps.
Proof.
  intros Hrun. by apply calibrate_Ok in Hrun as (_ & ? & ?).
Qed.

Lemma calibration_postcondition_witness :
  ∃ ice interval g',
    generate_balanced_ice 30 sample_grid default_max_steps zero_draws
    = Ok (ice, interval, g')
    ∧ (∃ g0, compute_ice_times sample_grid interval g0 = Ok (ice, g'))
    ∧ ∃ s, find_shortest_safe_steps sample_grid ice = Ok (Some s)
           ∧ s < default_max_steps.
Proof.
  destruct (generate_balanced_ice 30 sample_grid default_max_steps zero_draws)
    as [[[ice interval] g']| |] eqn:E.
  - exists ice, interval, g'. split; [reflexivity|].
    exact (calibration_postcondition _ _ _ _ _ _ _ E).
  - exfalso. vm_compute in E. discriminate E.
  - exfalso. vm_compute in E. discriminate E.
Defined.

(** C2. On a rectangular grid with a freeze-time matrix of the same
    shape, [find_shortest_safe_steps] returns the least number of moves
    of a walk from (0,0) to (0,C-1) that moves between 4-neighbours,
    never enters a wall, and enters every cell other than the start
    strictly before the cell's freeze time; it returns [None] exactly
    when there is no such walk. *)
Theorem find_shortest_safe_steps_minimal grid ice R C :
  shape grid R C → shape ice R C → (0 < R)%nat → (0 < C)%nat →
  ∃ res, find_shortest_safe_steps grid ice = Ok res
    ∧ match res with
      | Some n =>
          ∃ k : nat, n = Z.of_nat k
            ∧ safe_walk grid ice k (0, Z.of_nat C - 1)
            ∧ ∀ k', safe_walk grid ice k' (0, Z.of_nat C - 1) → (k ≤ k')%nat
      | None => ∀ k, ¬ safe_walk grid ice k (0, Z.of_nat C - 1)
      end.
Proof.
  intros Hg Hi HR HC.
  destruct (find_shortest_safe_steps_spec grid ice R C Hg Hi HR HC) as (res & Hrun & Hres).
  exists res. split; [done|]. by destruct res.
Qed.

Lemma find_shortest_safe_steps_minimal_witness :
  ∃ res, find_shortest_safe_steps base_grid (no_ice 10 10) = Ok res
    ∧ match res with
      | Some n =>
          ∃ k : nat, n = Z.of_nat k
            ∧ safe_walk base_grid (no_ice 10 10) k (0, Z.of_nat 10 - 1)
            ∧ ∀ k', safe_walk base_grid (no_ice 10 10) k' (0, Z.of_nat 10 - 1)
                    → (k ≤ k')%nat
      | None => ∀ k, ¬ safe_walk base_grid (no_ice 10 10) k (0, Z.of_nat 10 - 1)
      end.
Proof.
  apply (find_shortest_safe_steps_minimal base_grid (no_ice 10 10) 10 10).
  - split; [reflexivity|repeat constructor].
  - split; [reflexivity|repeat constructor].
  - lia.
  - lia.
Defined.

(** C4, as the code has it.  On the base grid, whose walls are at (0,8),
    (4,0) and (9,5), with no seed placed, every freeze time is infinite
    and [find_shortest_safe_steps] returns 11: the wall at (0,8) closes
    row 0, and the way round through row 1 takes two more moves than the
    nine of the straight line. *)
Theorem base_grid_shortest_is_eleven :
  shape base_grid 10 10
  ∧ cells_with "#" base_grid = [(0, 8); (4, 0); (9, 5)]
  ∧ cells_with "I" base_grid = []
  ∧ (∀ interval g, compute_ice_times base_grid interval g = Ok (no_ice 10 10, g))
  ∧ find_shortest_safe_steps base_grid (no_ice 10 10) = Ok (Some 11).
Proof.
  split; [apply base_grid_shape|].
  split; [reflexivity|]. split; [reflexivity|].
  split; [intros; reflexivity|vm_compute; reflexivity].
Qed.

(** C4 as stated fails: the search does not return 9. *)
Lemma base_grid_shortest_is_not_nine :
  find_shortest_safe_steps base_grid (no_ice 10 10) ≠ Ok (Some 9).
Proof. vm_compute. discriminate. Qed.

(** C5. When the target of a move is a cell of the grid that is not a
    wall, the handler sets [game_over] exactly when the step count after
    the move is at least the freeze time of the target, which is exactly
    when the test [steps + 1 < ice_time] of the search fails; in that
    case the player stays where it was, and otherwise the player stands
    on the target with the step count increased by one. *)
Theorem move_check_is_strict st d R C :
  shape (s_grid st) R C → shape (s_ice_time st) R C →
  open_cell (s_grid st) (pos_r st + d.1, pos_c st + d.2) →
  game_over st = false →
  ∃ f st',
    at2 (s_ice_time st) (pos_r st + d.1, pos_c st + d.2) = Some f
    ∧ press d st = Ok st'
    ∧ (game_over st' = true ↔ ∃ t, f = Fin t ∧ t ≤ current_steps st + 1)
    ∧ game_over st' = negb (lt_ftime (current_steps st + 1) f)
    ∧ (game_over st' = true →
       (pos_r st', pos_c st') = (pos_r st, pos_c st)
       ∧ current_steps st' = current_steps st)
    ∧ (game_over st' = false →
       (pos_r st', pos_c st') = (pos_r st + d.1, pos_c st + d.2)
       ∧ current_steps st' = current_steps st + 1).
Proof.
  intros Hg Hi Hopen Hover.
  pose proof Hopen as (ch & Hch & Hnw).
  assert (in_bounds (Z.of_nat R) (Z.of_nat C) (pos_r st + d.1) (pos_c st + d.2) = true)
    as Hin.
  { apply (at2_in_bounds (s_grid st) R C (_, _) Hg). by eexists. }
  assert (0 < R)%nat as HR by (apply in_bounds_spec in Hin; lia).
  destruct (get2_total (s_ice_time st) R C _ _ Hi Hin) as (f & Hget & Hf).
  unfold press. rewrite (dims_shape _ R C Hg HR). cbn [bind]. rewrite Hin.
  assert (get2 (s_grid st) (pos_r st + d.1) (pos_c st + d.2) = Ok ch) as ->.
  { apply in_bounds_spec in Hin. apply get2_Ok; [lia..|done]. }
  cbn [bind]. destruct (Ascii.eqb_spec ch "#") as [|_]; [done|]. cbn [negb].
  rewrite Hget. cbn [bind]. exists f.
  destruct f as [t|]; cbn [ge_ftime lt_ftime].
  - destruct (Z.leb_spec t (current_steps st + 1)) as [Hle|Hgt].
    + eexists. split; [done|]. split; [done|]. cbn.
      destruct (Z.ltb_spec (current_steps st + 1) t); [lia|].
      split; [split; [eauto|done]|]. split; [done|]. split; [done|]. done.
    + eexists. split; [done|]. split; [done|]. cbn. rewrite Hover.
      destruct (Z.ltb_spec (current_steps st + 1) t); [|lia].
      split; [split; [done|intros (t' & [= <-] & ?); lia]|].
      split; [done|]. split; [done|]. done.
  - eexists. split; [done|]. split; [done|]. cbn. rewrite Hover.
    split; [split; [done|intros (t' & [=] & ?)]|].
    split; [done|]. split; [done|]. done.
Qed.

Lemma move_check_is_strict_witness :
  let st := mkSession base_grid (no_ice 10 10) 2 0 0 0 false false in
  ∃ f st',
    at2 (s_ice_time st) (pos_r st + 0, pos_c st + 1) = Some f
    ∧ press (0, 1) st = Ok st'
    ∧ (game_over st' = true ↔ ∃ t, f = Fin t ∧ t ≤ current_steps st + 1)
    ∧ game_over st' = negb (lt_ftime (current_steps st + 1) f)
    ∧ (game_over st' = true →
       (pos_r st', pos_c st') = (pos_r st, pos_c st)
       ∧ current_steps st' = current_steps st)
    ∧ (game_over st' = false →
       (pos_r st', pos_c st') = (pos_r st + 0, pos_c st + 1)
       ∧ current_steps st' = current_steps st + 1).
Proof.
  intros st.
  apply (move_check_is_strict st (0, 1) 10 10).
  - split; [reflexivity|repeat constructor].
  - split; [reflexivity|repeat constructor].
  - exists "."%char. split; [reflexivity|discriminate].
  - reflexivity.
Defined.

(** C3. For a rectangular grid and an interval of at least 1,
    [compute_ice_times] returns a matrix in which exactly the seed cells
    have freeze time 0, every other cell that is not a wall has either a
    finite time that is at least the interval (hence at least 1) or
    infinity, and a cell the expansion did not reach is at infinity: a
    finite time of a cell that is not a seed comes from a neighbour that
    froze one interval earlier, a cell that no chain of cells leads to
    from a seed is at infinity, and so is every wall. *)
Theorem compute_ice_times_validity grid R C interval g :
  shape grid R C → (0 < R)%nat → 1 ≤ interval →
  ∃ ice g',
    compute_ice_times grid interval g = Ok (ice, g')
    ∧ shape ice R C
    ∧ ∀ p ch, at2 grid p = Some ch →
        ∃ f, at2 ice p = Some f
          ∧ (f = Fin 0 ↔ ch = "I"%char)
          ∧ (ch ≠ "I"%char → ch ≠ "#"%char →
             f = Inf ∨ ∃ v, f = Fin v ∧ interval ≤ v ∧ 1 ≤ v)
          ∧ (ch ≠ "I"%char → ∀ v, f = Fin v →
             ∃ p', adjacent p' p ∧ at2 ice p' = Some (Fin (v - interval)))
          ∧ ((∀ k, ¬ ice_layer grid k p) → f = Inf)
          ∧ (ch = "#"%char → f = Inf).
Proof.
  intros Hsh HR Hiv.
  destruct (compute_ice_times_inv grid R C interval Hsh ltac:(lia) g HR)
    as (ice & g' & Hrun & lo & Hinv).
  exists ice, g'. split; [done|]. split; [apply (inv_shape _ _ _ _ _ _ _ Hinv)|].
  intros p ch Hch.
  assert (is_Some (at2 ice p)) as [f Hf].
  { apply (at2_in_bounds ice R C p (inv_shape _ _ _ _ _ _ _ Hinv)).
    apply (at2_in_bounds grid R C p Hsh). by eexists. }
  exists f. split; [done|].
  assert (ch ≠ "I"%char → ∀ v, f = Fin v →
          (∃ k : nat, (1 ≤ k)%nat ∧ v = Z.of_nat k * interval ∧ ice_layer grid k p)
          ∧ ∃ p', adjacent p' p ∧ at2 ice p' = Some (Fin (v - interval))) as Hcell.
  { intros Hns v ->. apply (inv_cells _ _ _ _ _ _ _ Hinv p v Hf).
    unfold is_seed. rewrite Hch. congruence. }
  assert (ch = "I"%char → f = Fin 0) as Hseed.
  { intros ->. pose proof (inv_seed _ _ _ _ _ _ _ Hinv p Hch). congruence. }
  assert ((∀ k, ¬ ice_layer grid k p) → f = Inf) as Hfar.
  { intros Hno. destruct f as [v|]; [exfalso|done].
    destruct (Ascii.eqb_spec ch "I") as [->|Hns].
    - by apply (Hno O).
    - destruct (Hcell Hns v eq_refl) as [(k & _ & _ & Hk) _]. by apply (Hno k). }
  split; [|split; [|split; [|split; [done|]]]].
  - split; [|done]. intros ->.
    destruct (Ascii.eqb_spec ch "I") as [|Hns]; [done|].
    destruct (Hcell Hns 0 eq_refl) as [(k & Hk & Hv & _) _]. nia.
  - intros Hns _. destruct f as [v|]; [right|by left].
    destruct (Hcell Hns v eq_refl) as [(k & Hk & -> & _) _].
    eexists. split; [done|]. nia.
  - intros Hns v Hv. by apply (Hcell Hns v Hv).
  - intros ->. apply Hfar. intros [|k].
    + unfold ice_layer, is_seed. rewrite Hch. discriminate.
    + intros [(ch' & Hch' & Hne) _]. congruence.
Qed.

Lemma compute_ice_times_validity_witness :
  ∃ ice g',
    compute_ice_times sample_grid 2 zero_draws = Ok (ice, g')
    ∧ shape ice 10 10
    ∧ ∀ p ch, at2 sample_grid p = Some ch →
        ∃ f, at2 ice p = Some f
          ∧ (f = Fin 0 ↔ ch = "I"%char)
          ∧ (ch ≠ "I"%char → ch ≠ "#"%char →
             f = Inf ∨ ∃ v, f = Fin v ∧ 2 ≤ v ∧ 1 ≤ v)
          ∧ (ch ≠ "I"%char → ∀ v, f = Fin v →
             ∃ p', adjacent p' p ∧ at2 ice p' = Some (Fin (v - 2)))
          ∧ ((∀ k, ¬ ice_layer sample_grid k p) → f = Inf)
          ∧ (ch = "#"%char → f = Inf).
Proof.
  apply (compute_ice_times_validity sample_grid 10 10 2 zero_draws).
  - split; [reflexivity|repeat constructor].
  - lia.
  - lia.
Defined.

(** C6. Whatever the draws, [generate_grid] returns a grid whose seed
    cells are between 3 and 5 distinct cells, each of them in columns
    C/2 to C-1 of the 10 by 10 grid, open in the base layout, and
    neither the start (0,0), nor the exit (0,C-1), nor in the 3 by 3
    zone at the start corner. *)
Theorem generate_grid_seeds g :
  ∃ grid g' seeds,
    generate_grid g = Ok (grid, g')
    ∧ NoDup seeds ∧ (3 ≤ length seeds ≤ 5)%nat
    ∧ (∀ p, is_seed grid p ↔ p ∈ seeds)
    ∧ ∀ p, p ∈ seeds →
        10 / 2 ≤ p.2 ≤ 10 - 1
        ∧ at2 base_grid p = Some "."%char
        ∧ p ≠ (0, 0) ∧ p ≠ (0, 10 - 1)
        ∧ ¬ (p.1 < 3 ∧ p.2 < 3).
Proof.
  destruct (generate_grid_spec g) as (grid & g' & seeds & Hrun & _ & Hnd & Hlen & Hsub & Hat).
  exists grid, g', seeds.
  split; [exact Hrun|]. split; [exact Hnd|]. split; [exact Hlen|]. split.
  - intros p. unfold is_seed. rewrite Hat. case_decide as Hp.
    + split; [intros _; exact Hp|reflexivity].
    + split; [|intros H; exfalso; exact (Hp H)].
      intros H. exfalso. exact (base_grid_no_seed p H).
  - intros p Hp. apply Hsub, candidate_cells_ok, seed_ok_spec in Hp.
    destruct Hp as (_ & H1 & H2 & H3 & H4 & H5).
    exact (conj H1 (conj H2 (conj H3 (conj H4 H5)))).
Qed.

(** C7. Every iteration of [while q] in [compute_ice_times] attempts
    exactly three of the four directions: the three are distinct, they
    are the first three of a permutation of the four, the iteration is
    the relaxation along these three in turn, and the fourth direction is
    not attempted. *)
Theorem expansion_attempts_three grid R C interval r c t ice q g :
  ∃ d1 d2 d3 d4,
    (attempted_dirs g).1 = [d1; d2; d3]
    ∧ [d1; d2; d3; d4] ≡ₚ directions
    ∧ NoDup [d1; d2; d3]
    ∧ d4 ∈ directions ∧ (d4 ∉ [d1; d2; d3])
    ∧ expand grid R C interval (r, c, t) ice q g
      = (let* st := for_each [d1; d2; d3] (relax grid R C interval r c t) (ice, q) in
         Ok (st, (attempted_dirs g).2)).
Proof.
  destruct (attempted_dirs_perm g) as (d1 & d2 & d3 & d4 & Hdirs & Hperm).
  exists d1, d2, d3, d4.
  assert (NoDup [d1; d2; d3; d4]) as Hnd by (rewrite Hperm; apply NoDup_directions).
  split; [done|]. split; [done|]. split; [|split; [|split]].
  - eapply sublist_NoDup; [exact Hnd|]. apply (sublist_take [d1; d2; d3; d4] 3).
  - rewrite <- Hperm. apply list_elem_of_lookup. by exists 3%nat.
  - change [d1; d2; d3; d4] with ([d1; d2; d3] ++ [d4]) in Hnd.
    apply NoDup_app in Hnd as (_ & Hdis & _). intros Hin.
    apply (Hdis d4 Hin). by left.
  - unfold expand. destruct (attempted_dirs g) as [dirs g1]. simpl in Hdirs.
    by subst dirs.
Qed.

(** C8, as the code has it.  On a rectangular grid where some walk of
    [k] moves, with [k < max_steps], leads from the start to the exit
    through cells that are neither walls nor seeds, the loop of
    [generate_balanced_ice] ends for every sequence of draws: it accepts
    an interval between 2 and [max 2 (k + 1)], after at most
    [max 1 k] iterations. *)
Theorem generate_balanced_ice_terminates grid R C max_steps (k : nat) fuel g :
  shape grid R C → (0 < R)%nat → (0 < C)%nat →
  clear_walk grid k (0, Z.of_nat C - 1) → Z.of_nat k < max_steps →
  (Nat.max 1 k ≤ fuel)%nat →
  ∃ ice interval g',
    generate_balanced_ice fuel grid max_steps g = Ok (ice, interval, g')
    ∧ 2 ≤ interval ≤ Z.max 2 (Z.of_nat k + 1).
Proof.
  intros Hsh HR HC Hclear Hk Hfuel. unfold generate_balanced_ice.
  apply (calibrate_accepts grid R C max_steps k Hsh HR HC Hclear Hk); lia.
Qed.

Lemma generate_balanced_ice_terminates_witness :
  ∃ ice interval g',
    generate_balanced_ice 11 base_grid default_max_steps zero_draws
    = Ok (ice, interval, g')
    ∧ 2 ≤ interval ≤ Z.max 2 (Z.of_nat 11 + 1).
Proof.
  apply (generate_balanced_ice_terminates base_grid 10 10 default_max_steps 11 11).
  - split; [reflexivity|repeat constructor].
  - lia.
  - lia.
  - apply (clear_path_walk base_grid 0 (0, 0)
             [(1, 0); (1, 1); (1, 2); (1, 3); (1, 4); (1, 5); (1, 6); (1, 7);
              (1, 8); (1, 9); (0, 9)]).
    + apply clear_start.
    + reflexivity.
  - reflexivity.
  - simpl. lia.
Defined.

(** C8 as stated fails: in a row of sixteen open cells the exit is
    reached from the start through open cells, in fifteen moves; every
    attempt finds no ice and a shortest path of 15 moves, which is not
    below the default budget of 15, so [generate_balanced_ice] has not
    returned after any number of iterations, whatever the draws. *)
Lemma corridor_never_accepted :
  shape corridor 1 16
  ∧ clear_walk corridor 15 (0, 15)
  ∧ (∀ interval g, compute_ice_times corridor interval g = Ok (no_ice 1 16, g))
  ∧ find_shortest_safe_steps corridor (no_ice 1 16) = Ok (Some 15)
  ∧ ∀ fuel g, generate_balanced_ice fuel corridor default_max_steps g = OutOfFuel.
Proof.
  split; [split; [reflexivity|repeat constructor]|]. split; [|split; [|split]].
  - apply (clear_path_walk corridor 0 (0, 0)
             [(0, 1); (0, 2); (0, 3); (0, 4); (0, 5); (0, 6); (0, 7); (0, 8);
              (0, 9); (0, 10); (0, 11); (0, 12); (0, 13); (0, 14); (0, 15)]).
    + apply clear_start.
    + reflexivity.
  - apply corridor_ice.
  - apply corridor_search.
  - intros fuel g. apply corridor_calibrate.
Qed.

(** C9. For a rectangular grid and an interval of at least 1, every
    finite entry of the matrix that [compute_ice_times] returns is a
    multiple [k * interval] of the interval, with [k = 0] on the seeds
    and [k >= 1] elsewhere. *)
Theorem compute_ice_times_multiples grid R C interval g :
  shape grid R C → (0 < R)%nat → 1 ≤ interval →
  ∃ ice g',
    compute_ice_times grid interval g = Ok (ice, g')
    ∧ ∀ p v, at2 ice p = Some (Fin v) →
        ∃ k : nat, v = Z.of_nat k * interval
                   ∧ (k = O ↔ is_seed grid p).
Proof.
  intros Hsh HR Hiv.
  destruct (compute_ice_times_inv grid R C interval Hsh ltac:(lia) g HR)
    as (ice & g' & Hrun & lo & Hinv).
  exists ice, g'. split; [done|]. intros p v Hv.
  assert (is_Some (at2 grid p)) as [ch Hch].
  { apply (at2_in_bounds grid R C p Hsh).
    apply (at2_in_bounds ice R C p (inv_shape _ _ _ _ _ _ _ Hinv)). by eexists. }
  destruct (Ascii.eqb_spec ch "I") as [->|Hns].
  - pose proof (inv_seed _ _ _ _ _ _ _ Hinv p Hch) as H0.
    rewrite H0 in Hv. injection Hv as <-. exists O. split; [lia|done].
  - assert (¬ is_seed grid p) as Hns' by (unfold is_seed; congruence).
    destruct (inv_cells _ _ _ _ _ _ _ Hinv p v Hv Hns') as [(k & Hk & -> & _) _].
    exists k. split; [done|]. split; [lia|done].
Qed.

Lemma compute_ice_times_multiples_witness :
  ∃ ice g',
    compute_ice_times sample_grid 3 zero_draws = Ok (ice, g')
    ∧ ∀ p v, at2 ice p = Some (Fin v) →
        ∃ k : nat, v = Z.of_nat k * 3 ∧ (k = O ↔ is_seed sample_grid p).
Proof.
  apply (compute_ice_times_multiples sample_grid 10 10 3 zero_draws).
  - split; [reflexivity|repeat constructor].
  - lia.
  - lia.
Defined.

(** C10. When [generate_grid] has built the grid and
    [generate_balanced_ice] has accepted a matrix for it, the freeze time
    of the start cell (0,0) in that matrix is infinite or at least 2, so
    the test [ice_time[0][0] <= 0] fails and the initialisation ends with
    a session to play, not with the frozen-at-start error. *)
Theorem start_is_not_frozen fuel g grid g1 ice interval g2 :
  generate_grid g = Ok (grid, g1) →
  generate_balanced_ice fuel grid default_max_steps g1 = Ok (ice, interval, g2) →
  (at2 ice (0, 0) = Some Inf ∨ ∃ v, at2 ice (0, 0) = Some (Fin v) ∧ 2 ≤ v)
  ∧ initialise fuel g
    = Ok (Playing (mkSession grid ice interval 0 0 0 false false), g2).
Proof.
  intros Hgrid Hcal.
  destruct (generate_grid_spec g) as (grid' & g1' & seeds & Hrun & Hsh & _ & _ & Hsub & Hat).
  rewrite Hgrid in Hrun. injection Hrun as <- <-.
  pose proof Hcal as Hcal'. apply calibrate_Ok in Hcal' as (Hiv & [g0 Hice] & _).
  destruct (compute_ice_times_result grid 10 10 interval g0 ice g2 Hsh
              ltac:(lia) ltac:(lia) Hice) as [lo Hinv].
  assert (¬ is_seed grid (0, 0)) as Hns.
  { unfold is_seed. rewrite Hat. case_decide as Hin; [|done].
    apply Hsub, candidate_cells_ok, seed_ok_spec in Hin. simpl in Hin.
    change (10 / 2) with 5 in Hin. lia. }
  assert (is_Some (at2 ice (0, 0))) as [f Hf].
  { by apply (at2_in_bounds ice 10 10 (0, 0) (inv_shape _ _ _ _ _ _ _ Hinv)). }
  assert (f = Inf ∨ ∃ v, f = Fin v ∧ 2 ≤ v) as Hstart.
  { destruct f as [v|]; [right|by left]. exists v. split; [done|].
    destruct (inv_cells _ _ _ _ _ _ _ Hinv (0, 0) v Hf Hns) as [(k & Hk & -> & _) _].
    nia. }
  split.
  - rewrite Hf. destruct Hstart as [->|(v & -> & ?)]; [by left|right; eauto].
  - unfold initialise. rewrite Hgrid. cbn [bind]. rewrite Hcal. cbn [bind].
    assert (get2 ice 0 0 = Ok f) as -> by (by apply get2_Ok).
    cbn [bind]. destruct Hstart as [->|(v & -> & Hv)]; [done|].
    cbn. destruct (Z.leb_spec v 0); [lia|done].
Qed.

Lemma start_is_not_frozen_witness :
  ∃ grid g1 ice interval g2,
    generate_grid zero_draws = Ok (grid, g1)
    ∧ generate_balanced_ice 30 grid default_max_steps g1 = Ok (ice, interval, g2)
    ∧ (at2 ice (0, 0) = Some Inf ∨ ∃ v, at2 ice (0, 0) = Some (Fin v) ∧ 2 ≤ v)
    ∧ initialise 30 zero_draws
      = Ok (Playing (mkSession grid ice interval 0 0 0 false false), g2).
Proof.
  destruct (generate_grid zero_draws) as [[grid g1]| |] eqn:E1.
  - destruct (generate_balanced_ice 30 grid default_max_steps g1)
      as [[[ice interval] g2]| |] eqn:E2.
    + exists grid, g1, ice, interval, g2. split; [reflexivity|].
      split; [exact E2|]. exact (start_is_not_frozen _ _ _ _ _ _ _ E1 E2).
    + exfalso. vm_compute in E1. injection E1 as <- <-.
      vm_compute in E2. discriminate E2.
    + exfalso. vm_compute in E1. injection E1 as <- <-.
      vm_compute in E2. discriminate E2.
  - exfalso. vm_compute in E1. discriminate E1.
  - exfalso. vm_compute in E1. discriminate E1.
Defined.


(** * Further properties of the code *)

(** ** Helper lemmas *)

Lemma for_each_invariant {A S : Type} (I : S → Prop) (l : list A)
    (body : A → S → result S) (s s' : S) :
  (∀ a t t', a ∈ l → I t → body a t = Ok t' → I t') →
  I s → for_each l body s = Ok s' → I s'.
Proof.
  revert s; induction l as [|a l IH]; intros s Hbody Hs; simpl.
  - by intros [= <-].
  - rewrite bind_Ok; intros (t & Ht & Hrest).
    eapply IH; [|eapply Hbody; [left|exact Hs|exact Ht]|exact Hrest].
    intros b u u' Hb; apply Hbody; by right.
Qed.

Lemma for_each_unchanged {A S : Type} (l : list A) (body : A → S → result S) (s : S) :
  (∀ a, a ∈ l → body a s = Ok s) → for_each l body s = Ok s.
Proof.
  induction l as [|a l IH]; intros Hbody; simpl; [done|].
  rewrite Hbody by left. simpl. apply IH. intros b Hb. apply Hbody. by right.
Qed.

Lemma adjacent_cases p q :
  adjacent p q →
  (q.1 = p.1 - 1 ∧ q.2 = p.2) ∨ (q.1 = p.1 + 1 ∧ q.2 = p.2)
  ∨ (q.1 = p.1 ∧ q.2 = p.2 - 1) ∨ (q.1 = p.1 ∧ q.2 = p.2 + 1).
Proof.
  intros (d & Hd & ->). apply list_elem_of_In in Hd. simpl in Hd.
  destruct Hd as [<-|[<-|[<-|[<-|[]]]]]; simpl; lia.
Qed.

(** A walk of [k] moves ends within distance [k] of the start, on a cell
    whose coordinates sum to the parity of [k]. *)
Lemma safe_walk_bounds grid ice k p :
  safe_walk grid ice k p →
  Z.abs p.1 + Z.abs p.2 ≤ Z.of_nat k
  ∧ ∃ m, Z.of_nat k - (p.1 + p.2) = 2 * m.
Proof.
  induction 1 as [|k p q _ [IH1 [m IH2]] Hadj _ _].
  - simpl. split; [lia|]. exists 0. lia.
  - apply adjacent_cases in Hadj. split; [lia|].
    destruct Hadj as [[? ?]|[[? ?]|[[? ?]|[? ?]]]];
      [exists (m + 1)|exists m|exists (m + 1)|exists m]; lia.
Qed.

Lemma safe_walk_later grid ice ice' k p :
  freezes_later ice ice' → safe_walk grid ice k p → safe_walk grid ice' k p.
Proof.
  intros Hlater. induction 1 as [|k p q _ IH Hadj Hopen Hfr]; [apply walk_start|].
  eapply walk_step; [exact IH|done|done|].
  destruct Hfr as [->|(f & Hf & Hlt)]; [by left|right].
  destruct (Hlater q f Hf) as (f' & Hf' & Hmono). exists f'. auto.
Qed.

Lemma freezes_later_no_ice ice R C : shape ice R C → freezes_later ice (no_ice R C).
Proof.
  intros Hsh p f Hf.
  assert (is_Some (at2 (no_ice R C) p)) as [f' Hf'].
  { apply (at2_in_bounds _ R C p (shape_replicate R C Inf)).
    apply (at2_in_bounds ice R C p Hsh). by eexists. }
  exists f'. split; [done|]. apply at2_replicate in Hf' as ->. done.
Qed.

(** The last move of a walk. *)
Lemma safe_walk_last grid ice k p :
  safe_walk grid ice (S k) p →
  ∃ p', safe_walk grid ice k p' ∧ adjacent p' p ∧ open_cell grid p
        ∧ (p = (0, 0) ∨ ∃ f, at2 ice p = Some f ∧ lt_ftime (Z.of_nat (S k)) f = true).
Proof. inversion 1; subst. eauto. Qed.

(** ** Empty inputs *)

(** X1. An empty grid makes [compute_ice_times], [find_shortest_safe_steps],
    [generate_balanced_ice] and [render_grid] raise [IndexError] (from
    [grid[0]]); a grid whose first row is empty makes
    [find_shortest_safe_steps] raise it too (from [visited[0][0] = True]),
    while [compute_ice_times] returns a matrix of empty rows for it when
    all its rows are empty. *)
Theorem empty_grid_raises :
  (∀ interval g, compute_ice_times [] interval g = IndexError)
  ∧ (∀ ice, find_shortest_safe_steps [] ice = IndexError)
  ∧ (∀ fuel max_steps g, generate_balanced_ice (S fuel) [] max_steps g = IndexError)
  ∧ (∀ ice steps r c, render_grid [] ice steps r c = IndexError)
  ∧ (∀ rows ice, find_shortest_safe_steps ([] :: rows) ice = IndexError)
  ∧ (∀ n interval g,
       compute_ice_times (replicate (S n) []) interval g
       = Ok (replicate (S n) [], g)).
Proof.
  split; [done|]. split; [done|]. split; [done|]. split; [done|]. split.
  - intros rows ice. unfold find_shortest_safe_steps.
    change (dims ([] :: rows)) with (Ok (Z.of_nat (S (length rows)), 0) : result (Z * Z)).
    cbn [bind]. rewrite Nat2Z.id. reflexivity.
  - intros n interval g. unfold compute_ice_times.
    assert (dims (replicate (S n) ([] : list ascii)) = Ok (Z.of_nat (S n), 0)) as ->.
    { unfold dims. simpl getitem. cbn [bind]. by rewrite length_replicate. }
    cbn [bind]. rewrite Nat2Z.id.
    assert (seed_all (replicate (S n) []) (Z.of_nat (S n)) 0
              (replicate (S n) (replicate (Z.to_nat 0) Inf), [])
            = Ok (replicate (S n) [], [])) as ->.
    { unfold seed_all. apply for_each_unchanged. done. }
    reflexivity.
Qed.

(** ** [find_shortest_safe_steps]: bounds and special cases *)

(** X2. The number of moves that [find_shortest_safe_steps] returns is at
    least [C - 1], the distance from the start to the exit along row 0,
    and exceeds it by an even number. *)
Theorem shortest_steps_at_least_distance grid ice R C n :
  shape grid R C → shape ice R C → (0 < R)%nat → (0 < C)%nat →
  find_shortest_safe_steps grid ice = Ok (Some n) →
  Z.of_nat C - 1 ≤ n ∧ ∃ m, 0 ≤ m ∧ n = Z.of_nat C - 1 + 2 * m.
Proof.
  intros Hg Hi HR HC Hrun.
  destruct (find_shortest_safe_steps_spec grid ice R C Hg Hi HR HC) as (res & Hres & Hspec).
  rewrite Hrun in Hres. injection Hres as <-.
  destruct Hspec as (k & -> & Hwalk & _).
  apply safe_walk_bounds in Hwalk as [Hd [m Hm]]. simpl in *.
  split; [lia|]. exists m. lia.
Qed.

Lemma shortest_steps_at_least_distance_witness :
  Z.of_nat 10 - 1 ≤ 11 ∧ ∃ m, 0 ≤ m ∧ 11 = Z.of_nat 10 - 1 + 2 * m.
Proof.
  apply (shortest_steps_at_least_distance base_grid (no_ice 10 10) 10 10 11).
  - split; [reflexivity|repeat constructor].
  - split; [reflexivity|repeat constructor].
  - lia.
  - lia.
  - vm_compute. reflexivity.
Defined.

(** X3. Freeze times that are later everywhere never make the way out
    longer: if the search finds [n] moves under [ice] and every cell
    freezes in [ice'] no earlier than in [ice], then the search under
    [ice'] finds a way of at most [n] moves. *)
Theorem later_ice_is_not_harder grid ice ice' R C n :
  shape grid R C → shape ice R C → shape ice' R C → (0 < R)%nat → (0 < C)%nat →
  freezes_later ice ice' →
  find_shortest_safe_steps grid ice = Ok (Some n) →
  ∃ n', find_shortest_safe_steps grid ice' = Ok (Some n') ∧ n' ≤ n.
Proof.
  intros Hg Hi Hi' HR HC Hlater Hrun.
  destruct (find_shortest_safe_steps_spec grid ice R C Hg Hi HR HC) as (res & Hres & Hspec).
  rewrite Hrun in Hres. injection Hres as <-.
  destruct Hspec as (k & -> & Hwalk & _).
  apply (safe_walk_later grid ice ice') in Hwalk; [|done].
  destruct (find_shortest_safe_steps_spec grid ice' R C Hg Hi' HR HC)
    as (res' & Hres' & Hspec').
  destruct res' as [n'|]; simpl in Hspec'.
  - exists n'. split; [done|]. destruct Hspec' as (k' & -> & _ & Hmin).
    specialize (Hmin k Hwalk). lia.
  - by apply Hspec' in Hwalk.
Qed.

Lemma later_ice_is_not_harder_witness :
  ∃ n', find_shortest_safe_steps sample_grid (no_ice 10 10) = Ok (Some n') ∧ n' ≤ 13.
Proof.
  apply (later_ice_is_not_harder sample_grid sample_ice (no_ice 10 10) 10 10 13).
  - split; [reflexivity|repeat constructor].
  - split; [reflexivity|repeat constructor].
  - split; [reflexivity|repeat constructor].
  - lia.
  - lia.
  - apply freezes_later_no_ice. split; [reflexivity|repeat constructor].
  - vm_compute. reflexivity.
Defined.

(** X4. When every cell of row 0 after the start is in the grid, is not a
    wall, and freezes after the step at which a player walking straight
    along the row enters it, [find_shortest_safe_steps] returns exactly
    [C - 1]. *)
Theorem free_top_row_is_shortest grid ice R C :
  shape grid R C → shape ice R C → (0 < R)%nat → (0 < C)%nat →
  (∀ c : nat, (1 ≤ c < C)%nat →
     open_cell grid (0, Z.of_nat c)
     ∧ ∃ f, at2 ice (0, Z.of_nat c) = Some f ∧ lt_ftime (Z.of_nat c) f = true) →
  find_shortest_safe_steps grid ice = Ok (Some (Z.of_nat C - 1)).
Proof.
  intros Hg Hi HR HC Hrow.
  assert (∀ c : nat, (c < C)%nat → safe_walk grid ice c (0, Z.of_nat c)) as Hwalk.
  { induction c as [|c IH]; intros Hc; [apply walk_start|].
    destruct (Hrow (S c) ltac:(lia)) as [Hopen Hfr].
    eapply walk_step; [apply IH; lia| |exact Hopen|by right].
    exists (0, 1). split; [|simpl; f_equal; lia].
    apply list_elem_of_In. simpl. auto. }
  destruct (find_shortest_safe_steps_spec grid ice R C Hg Hi HR HC) as (res & -> & Hspec).
  specialize (Hwalk (C - 1)%nat ltac:(lia)).
  replace (Z.of_nat (C - 1)) with (Z.of_nat C - 1) in Hwalk by lia.
  destruct res as [n|]; simpl in Hspec; [|by apply Hspec in Hwalk].
  destruct Hspec as (k & -> & Hk & Hmin). specialize (Hmin _ Hwalk).
  apply safe_walk_bounds in Hk as [Hd _]. simpl in Hd. do 2 f_equal. lia.
Qed.

Lemma free_top_row_is_shortest_witness :
  find_shortest_safe_steps corridor (no_ice 1 16) = Ok (Some (Z.of_nat 16 - 1)).
Proof.
  apply (free_top_row_is_shortest corridor (no_ice 1 16) 1 16).
  - split; [reflexivity|repeat constructor].
  - split; [reflexivity|repeat constructor].
  - lia.
  - lia.
  - intros c Hc.
    do 16 (destruct c as [|c];
           [first [lia
                  |split; [exists "."%char; split; [reflexivity|discriminate]
                          |exists Inf; split; reflexivity]]|]).
    lia.
Defined.

(** X5. In a grid of one column the exit is the start, and
    [find_shortest_safe_steps] returns 0 whatever the start cell and the
    freeze times are: the start is never tested. *)
Theorem single_column_returns_zero grid ice R :
  shape grid R 1 → (0 < R)%nat →
  find_shortest_safe_steps grid ice = Ok (Some 0).
Proof.
  intros Hg HR. unfold find_shortest_safe_steps.
  rewrite (dims_shape grid R 1 Hg HR). cbn [bind]. rewrite !Nat2Z.id.
  destruct (set2_total (replicate R (replicate 1 false)) R 1 0 0 true
              (shape_replicate R 1 false)) as [visited ->].
  { apply in_bounds_spec. lia. }
  reflexivity.
Qed.

Lemma single_column_returns_zero_witness :
  find_shortest_safe_steps [["#"%char]; ["."%char]] [[Fin 0]; [Fin 0]] = Ok (Some 0).
Proof.
  apply (single_column_returns_zero [["#"%char]; ["."%char]] [[Fin 0]; [Fin 0]] 2).
  - split; [reflexivity|repeat constructor].
  - lia.
Defined.

(** X6. In a grid of at least two columns, when the exit is a wall, or
    freezes no later than step [C - 1], [find_shortest_safe_steps]
    returns [None]. *)
Theorem blocked_exit_is_unreachable grid ice R C :
  shape grid R C → shape ice R C → (0 < R)%nat → (2 ≤ C)%nat →
  (at2 grid (0, Z.of_nat C - 1) = Some "#"%char
   ∨ ∃ f, at2 ice (0, Z.of_nat C - 1) = Some f ∧ lt_ftime (Z.of_nat C - 1) f = false) →
  find_shortest_safe_steps grid ice = Ok None.
Proof.
  intros Hg Hi HR HC Hblocked.
  destruct (find_shortest_safe_steps_spec grid ice R C Hg Hi HR ltac:(lia))
    as (res & -> & Hspec).
  destruct res as [n|]; [exfalso|done]. simpl in Hspec.
  destruct Hspec as (k & _ & Hwalk & _).
  pose proof (safe_walk_bounds _ _ _ _ Hwalk) as [Hd _]. simpl in Hd.
  destruct k as [|k]; [lia|].
  apply safe_walk_last in Hwalk as (p' & _ & _ & (ch & Hch & Hnw) & Hfr).
  destruct Hblocked as [Hwall|(f & Hf & Hlt)]; [congruence|].
  destruct Hfr as [[=]|(f' & Hf' & Hlt')]; [lia|].
  rewrite Hf in Hf'. injection Hf' as <-.
  rewrite (lt_ftime_mono (Z.of_nat C - 1) (Z.of_nat (S k)) f) in Hlt; [done|lia|done].
Qed.

Lemma blocked_exit_is_unreachable_witness :
  find_shortest_safe_steps [["."%char; "."%char]] [[Inf; Fin 1]] = Ok None.
Proof.
  apply (blocked_exit_is_unreachable [["."%char; "."%char]] [[Inf; Fin 1]] 1 2).
  - split; [reflexivity|repeat constructor].
  - split; [reflexivity|repeat constructor].
  - lia.
  - lia.
  - right. exists (Fin 1). split; reflexivity.
Defined.

(** ** [compute_ice_times]: more on the freeze times *)

(** X7. On a grid without seeds [compute_ice_times] returns the matrix
    that is infinite everywhere, for every interval, and draws nothing
    from the random source. *)
Theorem no_seed_no_ice grid R C interval g :
  shape grid R C → (0 < R)%nat → (∀ p, ¬ is_seed grid p) →
  compute_ice_times grid interval g = Ok (no_ice R C, g).
Proof.
  intros Hg HR Hns. unfold compute_ice_times.
  rewrite (dims_shape grid R C Hg HR). cbn [bind]. rewrite !Nat2Z.id.
  assert (seed_all grid (Z.of_nat R) (Z.of_nat C) (replicate R (replicate C Inf), [])
          = Ok (replicate R (replicate C Inf), [])) as ->; [|reflexivity].
  unfold seed_all. apply for_each_unchanged. intros r Hr.
  apply for_each_unchanged. intros c Hc. unfold seed_cell.
  apply elem_of_range in Hr, Hc.
  destruct (get2_total grid R C r c Hg) as (ch & -> & Hch); [apply in_bounds_spec; lia|].
  cbn [bind]. destruct (Ascii.eqb_spec ch "I") as [->|_]; [|done].
  by apply Hns in Hch.
Qed.

Lemma no_seed_no_ice_witness :
  compute_ice_times base_grid 2 zero_draws = Ok (no_ice 10 10, zero_draws).
Proof.
  apply (no_seed_no_ice base_grid 10 10 2 zero_draws).
  - split; [reflexivity|repeat constructor].
  - lia.
  - apply base_grid_no_seed.
Defined.

Lemma ice_layer_manhattan grid k p :
  ice_layer grid k p → ∃ s, is_seed grid s ∧ manhattan s p ≤ Z.of_nat k.
Proof.
  revert p. induction k as [|k IH]; intros p; simpl.
  - intros Hs. exists p. split; [done|]. unfold manhattan. lia.
  - intros (_ & p' & Hp' & Hadj). destruct (IH p' Hp') as (s & Hs & Hd).
    exists s. split; [done|]. apply adjacent_cases in Hadj. unfold manhattan in *. lia.
Qed.

(** X8. No cell freezes before the ice could have walked to it: every
    finite freeze time that [compute_ice_times] returns is at least the
    interval times the distance, in moves, from some seed to the cell. *)
Theorem freeze_time_at_least_distance grid R C interval g :
  shape grid R C → (0 < R)%nat → 1 ≤ interval →
  ∃ ice g',
    compute_ice_times grid interval g = Ok (ice, g')
    ∧ ∀ p v, at2 ice p = Some (Fin v) →
        ∃ s, is_seed grid s ∧ interval * manhattan s p ≤ v.
Proof.
  intros Hsh HR Hiv.
  destruct (compute_ice_times_inv grid R C interval Hsh ltac:(lia) g HR)
    as (ice & g' & Hrun & lo & Hinv).
  exists ice, g'. split; [done|]. intros p v Hv.
  assert (is_Some (at2 grid p)) as [ch Hch].
  { apply (at2_in_bounds grid R C p Hsh).
    apply (at2_in_bounds ice R C p (inv_shape _ _ _ _ _ _ _ Hinv)). by eexists. }
  destruct (Ascii.eqb_spec ch "I") as [->|Hns].
  - pose proof (inv_seed _ _ _ _ _ _ _ Hinv p Hch) as H0.
    rewrite H0 in Hv. injection Hv as <-. exists p. split; [done|].
    unfold manhattan. lia.
  - assert (¬ is_seed grid p) as Hns' by (unfold is_seed; congruence).
    destruct (inv_cells _ _ _ _ _ _ _ Hinv p v Hv Hns') as [(k & Hk & -> & Hl) _].
    destruct (ice_layer_manhattan grid k p Hl) as (s & Hs & Hd).
    exists s. split; [done|]. unfold manhattan in *. nia.
Qed.

Lemma freeze_time_at_least_distance_witness :
  ∃ ice g',
    compute_ice_times sample_grid 2 zero_draws = Ok (ice, g')
    ∧ ∀ p v, at2 ice p = Some (Fin v) →
        ∃ s, is_seed sample_grid s ∧ 2 * manhattan s p ≤ v.
Proof.
  apply (freeze_time_at_least_distance sample_grid 10 10 2 zero_draws).
  - split; [reflexivity|repeat constructor].
  - lia.
  - lia.
Defined.

(** ** [generate_grid]: the layout *)

Lemma base_grid_cells p ch :
  at2 base_grid p = Some ch →
  (ch = "#"%char ∧ p ∈ [(0, 8); (4, 0); (9, 5)])
  ∨ (ch = "."%char ∧ p ∉ [(0, 8); (4, 0); (9, 5)]).
Proof.
  intros Hch.
  assert (in_bounds 10 10 p.1 p.2 = true) as Hin.
  { apply (at2_in_bounds base_grid 10 10 p base_grid_shape). by eexists. }
  apply in_bounds_spec in Hin as [Hr Hc]. destruct p as [r c]. simpl in Hr, Hc.
  assert (∃ i j : nat, r = Z.of_nat i ∧ c = Z.of_nat j ∧ (i < 10)%nat ∧ (j < 10)%nat)
    as (i & j & -> & -> & Hi & Hj).
  { exists (Z.to_nat r), (Z.to_nat c). lia. }
  clear Hr Hc.
  destruct i as [|[|[|[|[|[|[|[|[|[|i]]]]]]]]]]; try (exfalso; lia).
  all: destruct j as [|[|[|[|[|[|[|[|[|[|j]]]]]]]]]]; try (exfalso; lia).
  all: vm_compute in Hch; injection Hch as <-.
  all: first [ left; split; [reflexivity|];
               apply (bool_decide_unpack _); vm_compute; exact I
             | right; split; [reflexivity|];
               apply (bool_decide_unpack _); vm_compute; exact I ].
Qed.

(** X9. Whatever the draws, the grid that [generate_grid] returns is 10
    by 10, has open cells at the start (0,0) and the exit (0,9), has
    walls exactly at (0,8), (4,0) and (9,5), and equals the base layout
    in columns 0 to 4. *)
Theorem generate_grid_layout g :
  ∃ grid g',
    generate_grid g = Ok (grid, g')
    ∧ shape grid 10 10
    ∧ at2 grid (0, 0) = Some "."%char
    ∧ at2 grid (0, 9) = Some "."%char
    ∧ (∀ p, at2 grid p = Some "#"%char ↔ p ∈ [(0, 8); (4, 0); (9, 5)])
    ∧ (∀ p, p.2 < 5 → at2 grid p = at2 base_grid p).
Proof.
  destruct (generate_grid_spec g) as (grid & g' & seeds & Hrun & Hsh & _ & _ & Hsub & Hat).
  assert (∀ p, p ∈ seeds →
            10 / 2 ≤ p.2 ∧ at2 base_grid p = Some "."%char
            ∧ p ≠ (0, 0) ∧ p ≠ (0, 10 - 1)) as Hseed.
  { intros p Hp. apply Hsub, candidate_cells_ok, seed_ok_spec in Hp.
    destruct Hp as (_ & [H1 _] & H2 & H3 & H4 & _).
    exact (conj H1 (conj H2 (conj H3 H4))). }
  exists grid, g'. split; [exact Hrun|]. split; [exact Hsh|].
  split; [|split; [|split]].
  - rewrite Hat. case_decide as Hp; [|reflexivity].
    apply Hseed in Hp as (_ & _ & Hp & _). exfalso. exact (Hp eq_refl).
  - rewrite Hat. case_decide as Hp; [|reflexivity].
    apply Hseed in Hp as (_ & _ & _ & Hp). exfalso. exact (Hp eq_refl).
  - intros p. rewrite Hat. case_decide as Hp.
    + apply Hseed in Hp as (_ & Hopen & _). split; [intros [=]|].
      intros Hw. destruct (base_grid_cells p _ Hopen) as [[[=] _]|[_ Hn]].
      exfalso. exact (Hn Hw).
    + split.
      * intros Hw. destruct (base_grid_cells p _ Hw) as [[_ Hin]|[[=] _]]. exact Hin.
      * intros Hw. destruct (at2 base_grid p) as [ch|] eqn:Hch.
        -- destruct (base_grid_cells p _ Hch) as [[-> _]|[_ Hn]]; [reflexivity|].
           exfalso. exact (Hn Hw).
        -- exfalso. revert Hch.
           apply list_elem_of_In in Hw. simpl in Hw.
           destruct Hw as [<-|[<-|[<-|[]]]]; discriminate.
  - intros p Hp. rewrite Hat. case_decide as Hin; [|reflexivity].
    apply Hseed in Hin as (Hcol & _). change (10 / 2) with 5 in Hcol. lia.
Qed.

(** ** A sealed exit *)

Lemma sealed_no_walk grid R C iv lo ice k :
  ice_inv grid R C iv lo ice [] → (3 ≤ C)%nat → exit_sealed grid C →
  ¬ safe_walk grid ice k (0, Z.of_nat C - 1).
Proof.
  intros Hinv HC Hsealed Hwalk.
  pose proof (safe_walk_bounds _ _ _ _ Hwalk) as [Hd _]. simpl in Hd.
  destruct k as [|k]; [lia|].
  apply safe_walk_last in Hwalk as (p & Hp & Hadj & _ & _).
  assert (p ≠ (0, 0)) as Hne.
  { intros ->. apply adjacent_cases in Hadj. simpl in Hadj. lia. }
  destruct k as [|k]; [by inversion Hp|].
  apply safe_walk_last in Hp as (_ & _ & _ & Hopen & Hfr).
  destruct (Hsealed p Hadj) as [Hno|Hseed]; [done|].
  destruct Hfr as [->|(f & Hf & Hlt)]; [done|].
  rewrite (inv_seed _ _ _ _ _ _ _ Hinv p Hseed) in Hf. injection Hf as <-.
  simpl in Hlt. apply Z.ltb_lt in Hlt. lia.
Qed.

Lemma sealed_calibrate grid R C max_steps :
  shape grid R C → (0 < R)%nat → (3 ≤ C)%nat → exit_sealed grid C →
  ∀ fuel i g, 0 ≤ i → calibrate fuel grid max_steps i g = OutOfFuel.
Proof.
  intros Hsh HR HC Hsealed. induction fuel as [|fuel IH]; intros i g Hi; [done|].
  cbn [calibrate].
  destruct (compute_ice_times_inv grid R C i Hsh Hi g HR) as (ice & g1 & -> & lo & Hinv).
  cbn [bind].
  destruct (find_shortest_safe_steps_spec grid ice R C Hsh
              (inv_shape _ _ _ _ _ _ _ Hinv) HR ltac:(lia)) as (res & -> & Hres).
  cbn [bind]. destruct res as [s|]; [exfalso|apply IH; lia].
  destruct Hres as (k & _ & Hwalk & _).
  by apply (sealed_no_walk grid R C i lo ice k Hinv HC Hsealed).
Qed.

Lemma unlucky_grid_shape : shape unlucky_grid 10 10.
Proof. split; [reflexivity|repeat constructor]. Qed.

Lemma unlucky_grid_sealed : exit_sealed unlucky_grid 10.
Proof.
  intros [r c] (d & Hd & Heq). apply list_elem_of_In in Hd. simpl in Hd, Heq.
  destruct Hd as [<-|[<-|[<-|[<-|[]]]]]; simpl in Heq; injection Heq as Hr Hc.
  - assert (r = 1) as -> by lia. assert (c = 9) as -> by lia. by right.
  - assert (r = -1) as -> by lia. assert (c = 9) as -> by lia.
    left. intros (ch & Hch & _). vm_compute in Hch. discriminate Hch.
  - assert (r = 0) as -> by lia. assert (c = 10) as -> by lia.
    left. intros (ch & Hch & _). vm_compute in Hch. discriminate Hch.
  - assert (r = 0) as -> by lia. assert (c = 8) as -> by lia.
    left. intros (ch & Hch & Hnw). vm_compute in Hch. by injection Hch as <-.
Qed.

(** X10. On a grid of at least three columns in which every neighbour of
    the exit is outside the grid, a wall or a seed, no interval is ever
    accepted: [generate_balanced_ice] has not returned after any number
    of iterations, whatever the budget and the draws. *)
Theorem sealed_exit_is_never_accepted grid R C max_steps fuel g :
  shape grid R C → (0 < R)%nat → (3 ≤ C)%nat → exit_sealed grid C →
  generate_balanced_ice fuel grid max_steps g = OutOfFuel.
Proof.
  intros Hsh HR HC Hsealed.
  apply (sealed_calibrate grid R C max_steps Hsh HR HC Hsealed). lia.
Qed.

Lemma sealed_exit_is_never_accepted_witness :
  generate_balanced_ice 50 unlucky_grid default_max_steps zero_draws = OutOfFuel.
Proof.
  apply (sealed_exit_is_never_accepted unlucky_grid 10 10).
  - split; [reflexivity|repeat constructor].
  - lia.
  - lia.
  - intros [r c] (d & Hd & Heq). apply list_elem_of_In in Hd. simpl in Hd, Heq.
    destruct Hd as [<-|[<-|[<-|[<-|[]]]]]; simpl in Heq; injection Heq as Hr Hc.
    + assert (r = 1) as -> by lia. assert (c = 9) as -> by lia. right. reflexivity.
    + assert (r = -1) as -> by lia. assert (c = 9) as -> by lia.
      left. intros (ch & Hch & _). vm_compute in Hch. discriminate Hch.
    + assert (r = 0) as -> by lia. assert (c = 10) as -> by lia.
      left. intros (ch & Hch & _). vm_compute in Hch. discriminate Hch.
    + assert (r = 0) as -> by lia. assert (c = 8) as -> by lia.
      left. intros (ch & Hch & Hnw). vm_compute in Hch.
      injection Hch as <-. exact (Hnw eq_refl).
Defined.

(** X11. [generate_grid] can return a grid on which the calibration never
    ends: for some draws it puts a seed on (1,9), the only neighbour of
    the exit that is not a wall, and then [generate_balanced_ice] has not
    returned after any number of iterations, whatever the later draws. *)
Theorem generate_grid_can_seal_the_exit :
  ∃ g grid g1,
    generate_grid g = Ok (grid, g1)
    ∧ is_seed grid (1, 9)
    ∧ ∀ fuel g', generate_balanced_ice fuel grid default_max_steps g' = OutOfFuel.
Proof.
  exists unlucky_draws, unlucky_grid. eexists.
  split; [vm_compute; reflexivity|]. split; [reflexivity|].
  intros fuel g'.
  apply (sealed_calibrate unlucky_grid 10 10 default_max_steps
           unlucky_grid_shape ltac:(lia) ltac:(lia) unlucky_grid_sealed). lia.
Qed.

(** ** The move handler and the play of the game *)

Lemma ge_ftime_lt_ftime a f : ge_ftime a f = negb (lt_ftime a f).
Proof. destruct f as [t|]; simpl; [apply Z.leb_antisym|done]. Qed.

(** What a run of the handler can do. *)
Lemma press_cases d st st' :
  press d st = Ok st' →
  ∃ R C, dims (s_grid st) = Ok (R, C)
    ∧ ((st' = st
        ∧ (in_bounds R C (pos_r st + d.1) (pos_c st + d.2) = false
           ∨ at2 (s_grid st) (pos_r st + d.1, pos_c st + d.2) = Some "#"%char))
       ∨ ∃ ch f,
           in_bounds R C (pos_r st + d.1) (pos_c st + d.2) = true
           ∧ at2 (s_grid st) (pos_r st + d.1, pos_c st + d.2) = Some ch
           ∧ ch ≠ "#"%char
           ∧ at2 (s_ice_time st) (pos_r st + d.1, pos_c st + d.2) = Some f
           ∧ ((lt_ftime (current_steps st + 1) f = false
               ∧ st' = mkSession (s_grid st) (s_ice_time st) (s_interval st)
                         (pos_r st) (pos_c st) (current_steps st) true (won st))
              ∨ (lt_ftime (current_steps st + 1) f = true
                 ∧ st' = mkSession (s_grid st) (s_ice_time st) (s_interval st)
                           (pos_r st + d.1) (pos_c st + d.2) (current_steps st + 1)
                           (game_over st)
                           (if pos_eqb (pos_r st + d.1, pos_c st + d.2) (0, C - 1)
                            then true else won st)))).
Proof.
  unfold press. rewrite bind_Ok. intros ([R C] & Hdims & Hrest).
  exists R, C. split; [done|].
  destruct (in_bounds R C _ _) eqn:Hin; [|left; injection Hrest as <-; auto].
  pose proof Hin as [[Hr0 _] [Hc0 _]]%in_bounds_spec.
  apply bind_Ok in Hrest as (ch & Hch & Hrest). apply get2_Ok in Hch; [|done..].
  destruct (Ascii.eqb_spec ch "#") as [->|Hnw]; cbn [negb] in Hrest;
    [left; injection Hrest as <-; auto|].
  apply bind_Ok in Hrest as (f & Hf & Hrest). apply get2_Ok in Hf; [|done..].
  right. exists ch, f. split; [done|]. split; [done|]. split; [done|]. split; [done|].
  rewrite ge_ftime_lt_ftime in Hrest.
  destruct (lt_ftime (current_steps st + 1) f); cbn [negb] in Hrest;
    injection Hrest as <-; auto.
Qed.

Lemma on_press_steps d st st' :
  on_press d st = Ok st' →
  (Z.to_nat (current_steps st') ≤ Z.to_nat (current_steps st) + 1)%nat.
Proof.
  unfold on_press. destruct (won st); [intros [= <-]; lia|].
  destruct (game_over st); [intros [= <-]; lia|].
  intros (R & C & _ & [[-> _]|(ch & f & _ & _ & _ & _ & [[_ ->]|[_ ->]])])%press_cases;
    simpl; lia.
Qed.

Lemma on_press_invariant grid ice R C d st st' :
  dims grid = Ok (R, C) → d ∈ directions →
  play_inv grid ice C st → on_press d st = Ok st' → play_inv grid ice C st'.
Proof.
  intros Hdims Hd (Hg & Hi & k & Hk & Hwalk & Hlive & Hwon) Hrun.
  assert (play_inv grid ice C st) as Hsame.
  { split; [exact Hg|]. split; [exact Hi|]. exists k. auto. }
  unfold on_press in Hrun.
  destruct (won st) eqn:Ewon; [by injection Hrun as <-|].
  destruct (game_over st) eqn:Eover; [by injection Hrun as <-|].
  apply press_cases in Hrun as (R' & C' & Hdims' & Hcases).
  rewrite Hg, Hdims in Hdims'. injection Hdims' as <- <-.
  destruct Hcases as [[-> _]|(ch & f & Hin & Hch & Hnw & Hf & [[_ ->]|[Hlt ->]])].
  - exact Hsame.
  - split; [exact Hg|]. split; [exact Hi|]. exists k. simpl.
    split; [exact Hk|]. split; [exact Hwalk|]. split; [exact Hlive|].
    rewrite Ewon. discriminate.
  - split; [exact Hg|]. split; [exact Hi|]. exists (S k). simpl.
    rewrite Hg in Hch. rewrite Hi in Hf. rewrite Hk in Hlt.
    replace (Z.of_nat k + 1) with (Z.of_nat (S k)) in Hlt by lia.
    split; [lia|]. split; [|split].
    + eapply walk_step; [exact Hwalk|by exists d|by exists ch|].
      right. exists f. by split.
    + right. exists f. by split.
    + destruct (pos_eqb _ _) eqn:Hexit; [|rewrite Ewon; discriminate].
      intros _. by apply pos_eqb_spec in Hexit.
Qed.

Lemma play_invariant grid ice interval R C ds st :
  dims grid = Ok (R, C) → Forall (λ d, d ∈ directions) ds →
  play ds (new_session grid ice interval) = Ok st →
  play_inv grid ice C st.
Proof.
  intros Hdims Hds Hrun. rewrite Forall_forall in Hds.
  refine (for_each_invariant (play_inv grid ice C) ds on_press _ st _ _ Hrun).
  - intros d t t' Hd Ht Hstep.
    exact (on_press_invariant grid ice R C d t t' Hdims (Hds d Hd) Ht Hstep).
  - split; [reflexivity|]. split; [reflexivity|]. exists O. simpl.
    split; [reflexivity|]. split; [apply walk_start|]. split; [by left|discriminate].
Qed.

Lemma play_steps ds st st' :
  play ds st = Ok st' →
  (Z.to_nat (current_steps st') ≤ Z.to_nat (current_steps st) + length ds)%nat.
Proof.
  intros Hrun.
  pose proof (for_each_grow (λ t, Z.to_nat (current_steps t)) 1 ds on_press st st'
                (λ d t t' _ H, on_press_steps d t t' H) Hrun) as Hgrow.
  cbv beta in Hgrow. lia.
Qed.

(** X12. A move whose target is outside the grid or a wall changes
    nothing in the session: no step is counted and the player stays. *)
Theorem invalid_move_changes_nothing st d R C :
  shape (s_grid st) R C → (0 < R)%nat →
  ¬ open_cell (s_grid st) (pos_r st + d.1, pos_c st + d.2) →
  press d st = Ok st.
Proof.
  intros Hg HR Hno. unfold press. rewrite (dims_shape _ R C Hg HR). cbn [bind].
  destruct (in_bounds _ _ _ _) eqn:Hin; [|reflexivity].
  destruct (get2_total (s_grid st) R C _ _ Hg Hin) as (ch & -> & Hch). cbn [bind].
  destruct (Ascii.eqb_spec ch "#") as [|Hnw]; [reflexivity|].
  exfalso. apply Hno. by exists ch.
Qed.

Lemma invalid_move_changes_nothing_witness :
  press (-1, 0) (new_session base_grid (no_ice 10 10) 2)
  = Ok (new_session base_grid (no_ice 10 10) 2).
Proof.
  apply (invalid_move_changes_nothing (new_session base_grid (no_ice 10 10) 2)
           (-1, 0) 10 10).
  - split; [reflexivity|repeat constructor].
  - lia.
  - intros (ch & Hch & _). vm_compute in Hch. discriminate Hch.
Defined.

(** X13. However the buttons are pressed from a new session, the grid
    and the freeze times stay as they were, the counted steps are at most
    the number of presses, the player stands at the end of a safe walk of
    as many moves as were counted, its cell is not frozen at the counted
    step (or it is still on the start with no step counted), and the game
    is won only with the player on the exit. *)
Theorem play_follows_a_safe_walk grid ice interval R C ds st :
  dims grid = Ok (R, C) → Forall (λ d, d ∈ directions) ds →
  play ds (new_session grid ice interval) = Ok st →
  s_grid st = grid ∧ s_ice_time st = ice
  ∧ ∃ k : nat,
      current_steps st = Z.of_nat k ∧ (k ≤ length ds)%nat
      ∧ safe_walk grid ice k (pos_r st, pos_c st)
      ∧ ((k = O ∧ (pos_r st, pos_c st) = (0, 0))
         ∨ ∃ f, at2 ice (pos_r st, pos_c st) = Some f
                ∧ lt_ftime (Z.of_nat k) f = true)
      ∧ (won st = true → (pos_r st, pos_c st) = (0, C - 1)).
Proof.
  intros Hdims Hds Hrun.
  destruct (play_invariant grid ice interval R C ds st Hdims Hds Hrun)
    as (Hg & Hi & k & Hk & Hwalk & Hlive & Hwon).
  split; [exact Hg|]. split; [exact Hi|]. exists k. split; [exact Hk|].
  split; [|auto]. apply play_steps in Hrun. simpl in Hrun. lia.
Qed.

Lemma play_follows_a_safe_walk_witness :
  ∃ st,
    play [(1, 0); (0, 1); (-1, 0)] (new_session base_grid (no_ice 10 10) 2) = Ok st
    ∧ s_grid st = base_grid ∧ s_ice_time st = no_ice 10 10
    ∧ ∃ k : nat,
        current_steps st = Z.of_nat k ∧ (k ≤ 3)%nat
        ∧ safe_walk base_grid (no_ice 10 10) k (pos_r st, pos_c st)
        ∧ ((k = O ∧ (pos_r st, pos_c st) = (0, 0))
           ∨ ∃ f, at2 (no_ice 10 10) (pos_r st, pos_c st) = Some f
                  ∧ lt_ftime (Z.of_nat k) f = true)
        ∧ (won st = true → (pos_r st, pos_c st) = (0, 10 - 1)).
Proof.
  eexists. split; [vm_compute; reflexivity|].
  apply (play_follows_a_safe_walk base_grid (no_ice 10 10) 2 10 10
           [(1, 0); (0, 1); (-1, 0)]).
  - reflexivity.
  - repeat constructor; apply list_elem_of_In; simpl; auto.
  - vm_compute. reflexivity.
Defined.

(** X14. No play wins faster than the search says: when a sequence of
    presses from a new session ends with the game won,
    [find_shortest_safe_steps] returns a number of moves that is at most
    the number of steps the play counted. *)
Theorem no_win_faster_than_search grid ice interval R C ds st :
  shape grid R C → shape ice R C → (0 < R)%nat → (0 < C)%nat →
  Forall (λ d, d ∈ directions) ds →
  play ds (new_session grid ice interval) = Ok st → won st = true →
  ∃ n, find_shortest_safe_steps grid ice = Ok (Some n)
       ∧ n ≤ current_steps st ≤ Z.of_nat (length ds).
Proof.
  intros Hg Hi HR HC Hds Hrun Hwon.
  pose proof (dims_shape grid R C Hg HR) as Hdims.
  destruct (play_invariant grid ice interval _ _ ds st Hdims Hds Hrun)
    as (_ & _ & k & Hk & Hwalk & _ & Hexit).
  rewrite (Hexit Hwon) in Hwalk.
  apply play_steps in Hrun. simpl in Hrun.
  destruct (find_shortest_safe_steps_spec grid ice R C Hg Hi HR HC) as (res & -> & Hres).
  destruct res as [n|]; simpl in Hres; [|by apply Hres in Hwalk].
  exists n. split; [reflexivity|]. destruct Hres as (k0 & -> & _ & Hmin).
  specialize (Hmin k Hwalk). lia.
Qed.

Lemma no_win_faster_than_search_witness :
  ∃ st,
    play [(0, 1)] (new_session [["."%char; "."%char]] [[Inf; Inf]] 2) = Ok st
    ∧ ∃ n, find_shortest_safe_steps [["."%char; "."%char]] [[Inf; Inf]] = Ok (Some n)
           ∧ n ≤ current_steps st ≤ Z.of_nat 1.
Proof.
  eexists. split; [vm_compute; reflexivity|].
  apply (no_win_faster_than_search [["."%char; "."%char]] [[Inf; Inf]] 2 1 2 [(0, 1)]).
  - split; [reflexivity|repeat constructor].
  - split; [reflexivity|repeat constructor].
  - lia.
  - lia.
  - repeat constructor; apply list_elem_of_In; simpl; auto.
  - vm_compute. reflexivity.
  - reflexivity.
Defined.

(** A safe walk can be played: pressing along it either brings the
    player to its end, or wins the game on the way. *)
Lemma walk_can_be_played grid ice interval R C k p :
  shape grid R C → (0 < R)%nat → (2 ≤ C)%nat →
  safe_walk grid ice k p →
  ∃ ds st,
    Forall (λ d, d ∈ directions) ds ∧ (length ds ≤ k)%nat
    ∧ play ds (new_session grid ice interval) = Ok st
    ∧ game_over st = false
    ∧ current_steps st = Z.of_nat (length ds)
    ∧ s_grid st = grid ∧ s_ice_time st = ice
    ∧ (((pos_r st, pos_c st) = p ∧ won st = false ∧ p ≠ (0, Z.of_nat C - 1))
       ∨ (won st = true ∧ (pos_r st, pos_c st) = (0, Z.of_nat C - 1))).
Proof.
  intros Hg HR HC.
  assert (∃ ds st,
            Forall (λ d, d ∈ directions) ds ∧ (length ds ≤ 0)%nat
            ∧ play ds (new_session grid ice interval) = Ok st
            ∧ game_over st = false
            ∧ current_steps st = Z.of_nat (length ds)
            ∧ s_grid st = grid ∧ s_ice_time st = ice
            ∧ (((pos_r st, pos_c st) = (0, 0) ∧ won st = false
                ∧ (0, 0) ≠ (0, Z.of_nat C - 1))
               ∨ (won st = true ∧ (pos_r st, pos_c st) = (0, Z.of_nat C - 1))))
    as Hstart.
  { exists [], (new_session grid ice interval). simpl.
    split; [constructor|]. repeat (split; [reflexivity|]). left.
    split; [reflexivity|]. split; [reflexivity|]. intros [=]. lia. }
  induction 1 as [|k p q Hwalk IH Hadj Hopen Hfr]; [exact Hstart|].
  destruct IH as (ds & st & Hds & Hlen & Hrun & Hover & Hsteps & Hsg & Hsi & Hpos).
  destruct Hpos as [(Hp & Hwon & _)|Hwon].
  2:{ exists ds, st. split; [exact Hds|]. split; [lia|]. split; [exact Hrun|].
      split; [exact Hover|]. split; [exact Hsteps|]. split; [exact Hsg|].
      split; [exact Hsi|]. right. exact Hwon. }
  destruct Hfr as [->|(f & Hf & Hlt)].
  { destruct Hstart as (ds0 & st0 & H1 & H2 & H3 & H4 & H5 & H6 & H7 & H8).
    exists ds0, st0. split; [exact H1|]. split; [lia|].
    exact (conj H3 (conj H4 (conj H5 (conj H6 (conj H7 H8))))). }
  destruct Hadj as (d & Hd & ->).
  subst p. cbn [fst snd] in *.
  pose proof Hopen as (ch & Hch & Hnw).
  assert (in_bounds (Z.of_nat R) (Z.of_nat C) (pos_r st + d.1) (pos_c st + d.2) = true)
    as Hin.
  { apply (at2_in_bounds grid R C (_, _) Hg). by eexists. }
  pose proof Hin as [[Hr0 _] [Hc0 _]]%in_bounds_spec.
  assert (lt_ftime (current_steps st + 1) f = true) as Hlt'.
  { eapply lt_ftime_mono; [|exact Hlt]. lia. }
  set (st' := mkSession grid ice (s_interval st)
                (pos_r st + d.1) (pos_c st + d.2) (current_steps st + 1) false
                (if pos_eqb (pos_r st + d.1, pos_c st + d.2) (0, Z.of_nat C - 1)
                 then true else false)).
  assert (on_press d st = Ok st') as Hstep.
  { unfold on_press. rewrite Hwon, Hover. unfold press.
    rewrite Hsg, Hsi, (dims_shape grid R C Hg HR). cbn [bind]. rewrite Hin.
    assert (get2 grid (pos_r st + d.1) (pos_c st + d.2) = Ok ch) as ->
      by (by apply get2_Ok).
    cbn [bind]. destruct (Ascii.eqb_spec ch "#") as [|_]; [done|]. cbn [negb].
    assert (get2 ice (pos_r st + d.1) (pos_c st + d.2) = Ok f) as ->
      by (by apply get2_Ok).
    cbn [bind]. rewrite ge_ftime_lt_ftime, Hlt'. cbn [negb].
    by rewrite Hover, Hwon. }
  exists (ds ++ [d]), st'.
  split; [apply Forall_app; split; [exact Hds|by apply Forall_singleton]|].
  rewrite length_app. cbn [length]. split; [lia|]. split.
  { unfold play. rewrite for_each_app. fold (play ds (new_session grid ice interval)).
    rewrite Hrun. cbn [bind for_each]. by rewrite Hstep. }
  split; [reflexivity|]. split; [cbn; lia|]. split; [reflexivity|].
  split; [reflexivity|]. cbn.
  destruct (pos_eqb _ _) eqn:Hexit.
  - right. split; [reflexivity|]. by apply pos_eqb_spec in Hexit.
  - left. split; [reflexivity|]. split; [reflexivity|].
    intros E. apply pos_eqb_spec in E. congruence.
Qed.

(** X15. In a grid of at least two columns, the number of moves that
    [find_shortest_safe_steps] returns can be played: some sequence of
    exactly that many presses from a new session wins the game, without
    the player ever freezing. *)
Theorem shortest_way_can_be_played grid ice interval R C n :
  shape grid R C → shape ice R C → (0 < R)%nat → (2 ≤ C)%nat →
  find_shortest_safe_steps grid ice = Ok (Some n) →
  ∃ ds st,
    Forall (λ d, d ∈ directions) ds ∧ Z.of_nat (length ds) = n
    ∧ play ds (new_session grid ice interval) = Ok st
    ∧ won st = true ∧ game_over st = false ∧ current_steps st = n
    ∧ (pos_r st, pos_c st) = (0, Z.of_nat C - 1).
Proof.
  intros Hg Hi HR HC Hrun.
  destruct (find_shortest_safe_steps_spec grid ice R C Hg Hi HR ltac:(lia))
    as (res & Hres & Hspec).
  rewrite Hrun in Hres. injection Hres as <-.
  destruct Hspec as (k & -> & Hwalk & Hmin).
  destruct (walk_can_be_played grid ice interval R C k _ Hg HR HC Hwalk)
    as (ds & st & Hds & Hlen & Hplay & Hover & Hsteps & _ & _ & Hpos).
  destruct Hpos as [(_ & _ & Hne)|[Hwon Hat]]; [done|].
  pose proof (play_invariant grid ice interval _ _ ds st
                (dims_shape grid R C Hg HR) Hds Hplay)
    as (_ & _ & k' & Hk' & Hwalk' & _ & _).
  rewrite Hat in Hwalk'. specialize (Hmin k' Hwalk').
  exists ds, st. split; [exact Hds|]. split; [lia|]. split; [exact Hplay|].
  split; [exact Hwon|]. split; [exact Hover|]. split; [lia|exact Hat].
Qed.

Lemma shortest_way_can_be_played_witness :
  ∃ ds st,
    Forall (λ d, d ∈ directions) ds ∧ Z.of_nat (length ds) = 11
    ∧ play ds (new_session base_grid (no_ice 10 10) 2) = Ok st
    ∧ won st = true ∧ game_over st = false ∧ current_steps st = 11
    ∧ (pos_r st, pos_c st) = (0, Z.of_nat 10 - 1).
Proof.
  apply (shortest_way_can_be_played base_grid (no_ice 10 10) 2 10 10 11).
  - split; [reflexivity|repeat constructor].
  - split; [reflexivity|repeat constructor].
  - lia.
  - lia.
  - vm_compute. reflexivity.
Defined.

(** X16. The promise of [generate_balanced_ice]: in a rectangular grid of
    at least two columns, when it returns a matrix and an interval, some
    sequence of fewer than [max_steps] presses from the new session wins
    the game. *)
Theorem accepted_puzzle_can_be_won fuel grid R C max_steps g ice interval g' :
  shape grid R C → (0 < R)%nat → (2 ≤ C)%nat →
  generate_balanced_ice fuel grid max_steps g = Ok (ice, interval, g') →
  ∃ ds st,
    Forall (λ d, d ∈ directions) ds ∧ Z.of_nat (length ds) < max_steps
    ∧ play ds (new_session grid ice interval) = Ok st
    ∧ won st = true ∧ game_over st = false.
Proof.
  intros Hg HR HC Hcal.
  apply calibrate_Ok in Hcal as (Hiv & [g0 Hice] & s & Hbfs & Hs).
  destruct (compute_ice_times_result grid R C interval g0 ice g' Hg HR
              ltac:(lia) Hice) as [lo Hinv].
  pose proof (inv_shape _ _ _ _ _ _ _ Hinv) as Hi.
  destruct (find_shortest_safe_steps_spec grid ice R C Hg Hi HR ltac:(lia))
    as (res & Hres & Hspec).
  rewrite Hbfs in Hres. injection Hres as <-.
  destruct Hspec as (k & -> & Hwalk & Hmin).
  destruct (walk_can_be_played grid ice interval R C k _ Hg HR HC Hwalk)
    as (ds & st & Hds & Hlen & Hplay & Hover & Hsteps & _ & _ & Hpos).
  destruct Hpos as [(_ & _ & Hne)|[Hwon Hat]]; [done|].
  exists ds, st. split; [exact Hds|]. split; [lia|]. split; [exact Hplay|].
  split; [exact Hwon|exact Hover].
Qed.

Lemma accepted_puzzle_can_be_won_witness :
  ∃ ice interval g',
    generate_balanced_ice 30 sample_grid default_max_steps zero_draws
    = Ok (ice, interval, g')
    ∧ ∃ ds st,
        Forall (λ d, d ∈ directions) ds ∧ Z.of_nat (length ds) < default_max_steps
        ∧ play ds (new_session sample_grid ice interval) = Ok st
        ∧ won st = true ∧ game_over st = false.
Proof.
  destruct (generate_balanced_ice 30 sample_grid default_max_steps zero_draws)
    as [[[ice interval] g']| |] eqn:E.
  - exists ice, interval, g'. split; [reflexivity|].
    apply (accepted_puzzle_can_be_won 30 sample_grid 10 10 default_max_steps
             zero_draws ice interval g').
    + split; [reflexivity|repeat constructor].
    + lia.
    + lia.
    + exact E.
  - exfalso. vm_compute in E. discriminate E.
  - exfalso. vm_compute in E. discriminate E.
Defined.

(** ** The calibration loop: the first accepted interval *)




(** ** [render_grid] *)


Lemma td_ice_not_empty : td_ice ≠ td_empty.
Proof. intros H. apply String.eqb_eq in H. vm_compute in H. discriminate H. Qed.

Lemma press_open st d R C :
  shape (s_grid st) R C → shape (s_ice_time st) R C →
  open_cell (s_grid st) (pos_r st + d.1, pos_c st + d.2) →
  ∃ ch f,
    get2 (s_grid st) (pos_r st + d.1) (pos_c st + d.2) = Ok ch ∧ ch ≠ "#"%char
    ∧ at2 (s_ice_time st) (pos_r st + d.1, pos_c st + d.2) = Some f
    ∧ get2 (s_ice_time st) (pos_r st + d.1) (pos_c st + d.2) = Ok f
    ∧ press d st
      = Ok (if lt_ftime (current_steps st + 1) f
            then mkSession (s_grid st) (s_ice_time st) (s_interval st)
                   (pos_r st + d.1) (pos_c st + d.2) (current_steps st + 1)
                   (game_over st)
                   (if pos_eqb (pos_r st + d.1, pos_c st + d.2) (0, Z.of_nat C - 1)
                    then true else won st)
            else mkSession (s_grid st) (s_ice_time st) (s_interval st)
                   (pos_r st) (pos_c st) (current_steps st) true (won st)).
Proof.
  intros Hg Hi (ch & Hch & Hnw).
  assert (in_bounds (Z.of_nat R) (Z.of_nat C) (pos_r st + d.1) (pos_c st + d.2) = true)
    as Hin.
  { apply (at2_in_bounds (s_grid st) R C (_, _) Hg). by eexists. }
  assert (0 < R)%nat as HR by (apply in_bounds_spec in Hin; lia).
  destruct (get2_total (s_ice_time st) R C _ _ Hi Hin) as (f & Hget & Hf).
  assert (get2 (s_grid st) (pos_r st + d.1) (pos_c st + d.2) = Ok ch) as Hgch.
  { apply in_bounds_spec in Hin. apply get2_Ok; [lia..|done]. }
  exists ch, f. split; [exact Hgch|]. split; [exact Hnw|]. split; [exact Hf|].
  split; [exact Hget|].
  unfold press. rewrite (dims_shape _ R C Hg HR). cbn [bind]. rewrite Hin, Hgch.
  cbn [bind]. destruct (Ascii.eqb_spec ch "#") as [|_]; [done|]. cbn [negb].
  rewrite Hget. cbn [bind]. rewrite ge_ftime_lt_ftime.
  by destruct (lt_ftime (current_steps st + 1) f).
Qed.

(** X18. The picture lags one step behind the move check.  For a target
    of a move that is in the grid, not a wall and not the exit: it is
    drawn as ice exactly when its freeze time is at most the current step
    count, and then moving onto it ends the game; but a target drawn as
    empty ends the game as well when its freeze time is the current step
    count plus one, and only then. *)
Theorem display_lags_one_step st d R C :
  shape (s_grid st) R C → shape (s_ice_time st) R C →
  d ∈ directions →
  open_cell (s_grid st) (pos_r st + d.1, pos_c st + d.2) →
  (pos_r st + d.1, pos_c st + d.2) ≠ (0, Z.of_nat C - 1) →
  game_over st = false →
  ∃ st' m,
    press d st = Ok st'
    ∧ cell_markup (s_grid st) (s_ice_time st) (Z.of_nat C) (current_steps st)
        (pos_r st) (pos_c st) (pos_r st + d.1) (pos_c st + d.2) = Ok m
    ∧ (m = td_ice ∨ m = td_empty)
    ∧ (m = td_ice ↔
       ∃ v, at2 (s_ice_time st) (pos_r st + d.1, pos_c st + d.2) = Some (Fin v)
            ∧ v ≤ current_steps st)
    ∧ (m = td_ice → game_over st' = true)
    ∧ (m = td_empty →
       (game_over st' = true ↔
        at2 (s_ice_time st) (pos_r st + d.1, pos_c st + d.2)
        = Some (Fin (current_steps st + 1)))).
Proof.
  intros Hg Hi Hd Hopen Hne Hover.
  destruct (press_open st d R C Hg Hi Hopen) as (ch & f & Hgch & Hnw & Hf & Hgf & Hpress).
  eexists. exists (if ftime_le f (current_steps st) then td_ice else td_empty).
  split; [exact Hpress|]. split.
  { unfold cell_markup.
    assert (pos_eqb (pos_r st + d.1, pos_c st + d.2) (pos_r st, pos_c st) = false) as ->.
    { apply not_true_is_false. intros E. apply pos_eqb_spec in E.
      injection E as E1 E2. apply list_elem_of_In in Hd. simpl in Hd.
      destruct Hd as [<-|[<-|[<-|[<-|[]]]]]; simpl in *; lia. }
    assert (pos_eqb (pos_r st + d.1, pos_c st + d.2) (0, Z.of_nat C - 1) = false) as ->.
    { apply not_true_is_false. intros E. by apply pos_eqb_spec in E. }
    rewrite Hgch. cbn [bind]. destruct (Ascii.eqb_spec ch "#") as [|_]; [done|].
    rewrite Hgf. cbn [bind]. by destruct (ftime_le f (current_steps st)). }
  rewrite Hf. destruct f as [v|]; cbn [ftime_le ge_ftime lt_ftime].
  - destruct (Z.leb_spec v (current_steps st)) as [Hle|Hgt].
    + destruct (Z.ltb_spec (current_steps st + 1) v) as [|_]; [lia|].
      split; [by left|]. split; [split; [eauto|done]|]. split; [done|].
      intros E. by apply td_ice_not_empty in E.
    + split; [by right|]. split.
      { split; [intros E; symmetry in E; by apply td_ice_not_empty in E|].
        intros (v' & [= <-] & ?). lia. }
      split; [intros E; symmetry in E; by apply td_ice_not_empty in E|].
      intros _. destruct (Z.ltb_spec (current_steps st + 1) v) as [Hlt|Hge]; cbn.
      * rewrite Hover. split; [done|]. intros [= ->]. lia.
      * split; [|done]. intros _. do 2 f_equal. lia.
  - split; [by right|]. split.
    { split; [intros E; symmetry in E; by apply td_ice_not_empty in E|].
      intros (v' & [=] & _). }
    split; [intros E; symmetry in E; by apply td_ice_not_empty in E|].
    intros _. cbn. rewrite Hover. split; done.
Qed.

Lemma display_lags_one_step_witness :
  let st := new_session [["."%char; "."%char; "."%char]] [[Inf; Fin 1; Inf]] 2 in
  ∃ st' m,
    press (0, 1) st = Ok st'
    ∧ cell_markup (s_grid st) (s_ice_time st) (Z.of_nat 3) (current_steps st)
        (pos_r st) (pos_c st) (pos_r st + 0) (pos_c st + 1) = Ok m
    ∧ (m = td_ice ∨ m = td_empty)
    ∧ (m = td_ice ↔
       ∃ v, at2 (s_ice_time st) (pos_r st + 0, pos_c st + 1) = Some (Fin v)
            ∧ v ≤ current_steps st)
    ∧ (m = td_ice → game_over st' = true)
    ∧ (m = td_empty →
       (game_over st' = true ↔
        at2 (s_ice_time st) (pos_r st + 0, pos_c st + 1)
        = Some (Fin (current_steps st + 1)))).
Proof.
  intros st.
  apply (display_lags_one_step st (0, 1) 1 3).
  - split; [reflexivity|repeat constructor].
  - split; [reflexivity|repeat constructor].
  - apply list_elem_of_In. simpl. auto.
  - exists "."%char. split; [reflexivity|discriminate].
  - discriminate.
  - reflexivity.
Defined.




(** ** [compute_ice_times]: how far the ice spreads from a seed *)

Section spread.
Variables (grid : Grid) (R C : nat) (iv : Z).
Hypothesis grid_shape : shape grid R C.
Hypothesis iv_nonneg : 0 ≤ iv.

(** What one relaxation does: finite freeze times stay, the queue grows
    at its end, and the neighbour is then a wall, outside the grid, or
    frozen no later than [t + iv]. *)
Lemma relax_effect t r c d ice (q : list Entry) st' :
  ice_inv grid R C iv t ice q →
  relax grid (Z.of_nat R) (Z.of_nat C) iv r c t d (ice, q) = Ok st' →
  (∀ p v, at2 ice p = Some (Fin v) → at2 st'.1 p = Some (Fin v))
  ∧ (∃ l, st'.2 = q ++ l)
  ∧ (¬ open_cell grid (r + d.1, c + d.2)
     ∨ ∃ v, at2 st'.1 (r + d.1, c + d.2) = Some (Fin v) ∧ v ≤ t + iv).
Proof.
  intros Hinv. unfold relax. cbn [fst snd].
  assert (∀ P : Prop, P →
            (∀ p v, at2 ice p = Some (Fin v) → at2 (ice, q).1 p = Some (Fin v))
            ∧ (∃ l, (ice, q).2 = q ++ l) ∧ P) as Hsame.
  { intros P HP. split; [done|]. split; [|done]. exists []. by rewrite app_nil_r. }
  destruct (in_bounds _ _ _ _) eqn:Hin.
  2:{ intros [= <-]. apply Hsame. left. intros Hopen.
      apply (open_cell_in_bounds grid R C grid_shape) in Hopen. simpl in Hopen.
      congruence. }
  pose proof Hin as [[Hr0 _] [Hc0 _]]%in_bounds_spec.
  rewrite bind_Ok. intros (ch & Hch & Hrest). apply get2_Ok in Hch; [|done..].
  destruct (Ascii.eqb_spec ch "#") as [->|Hnw]; cbn [negb] in Hrest.
  { injection Hrest as <-. apply Hsame. left. intros (ch' & Hch' & Hne). congruence. }
  apply bind_Ok in Hrest as (it & Hit & Hrest). apply get2_Ok in Hit; [|done..].
  destruct it as [v|]; cbn [ftime_gt lt_ftime] in Hrest.
  - pose proof (inv_bound _ _ _ _ _ _ _ Hinv _ _ Hit).
    destruct (Z.ltb_spec (t + iv) v); [lia|].
    injection Hrest as <-. apply Hsame. right. exists v. split; [done|lia].
  - apply bind_Ok in Hrest as (ice' & Hset & [= <-]). cbn [fst snd].
    destruct (set2_spec is_inf ice R C _ _ _ _ (inv_shape _ _ _ _ _ _ _ Hinv)
                Hr0 Hc0 Hset) as (_ & Hat' & _).
    split; [|split].
    + intros p v Hv. rewrite Hat'. case_decide; [subst p; congruence|done].
    + by eexists.
    + right. exists (t + iv). split; [|lia]. rewrite Hat'. by rewrite decide_True.
Qed.

(** One iteration of [while q]: as [expand_inv], and the ice has spread
    from the expanded cell in all directions but one. *)
Lemma expand_effect lo r c t ice (q : list Entry) g :
  ice_inv grid R C iv lo ice ((r, c, t) :: q) →
  ∃ ice' q' g',
    expand grid (Z.of_nat R) (Z.of_nat C) iv (r, c, t) ice q g = Ok (ice', q', g')
    ∧ ice_inv grid R C iv t ice' q'
    ∧ (ice_measure ice' q' < ice_measure ice ((r, c, t) :: q))%nat
    ∧ (∀ p v, at2 ice p = Some (Fin v) → at2 ice' p = Some (Fin v))
    ∧ (∃ l, q' = q ++ l)
    ∧ ∃ skipped, ∀ d, d ∈ directions → d ≠ skipped →
        ¬ open_cell grid (r + d.1, c + d.2)
        ∨ ∃ v, at2 ice' (r + d.1, c + d.2) = Some (Fin v) ∧ v ≤ t + iv.
Proof.
  intros Hinv0.
  pose proof (ice_inv_pop grid R C iv iv_nonneg lo (r, c, t) ice q Hinv0)
    as (Hinv & Hrc & k & Hk & Hlayer).
  unfold entry_time, entry_cell in Hinv, Hk, Hlayer, Hrc.
  cbn [fst snd] in Hinv, Hk, Hlayer, Hrc. unfold expand.
  destruct (attempted_dirs_perm g) as (d1 & d2 & d3 & d4 & Hdirs & Hperm).
  destruct (attempted_dirs g) as [dirs g']. cbn [fst] in Hdirs. subst dirs.
  assert (∀ d, d ∈ [d1; d2; d3] → d ∈ directions) as Hsub.
  { intros d Hd. rewrite <- Hperm. apply elem_of_cons in Hd as [->|Hd]; [by left|].
    right. apply elem_of_cons in Hd as [->|Hd]; [by left|].
    right. apply elem_of_cons in Hd as [->|Hd]; [by left|].
    by apply elem_of_nil in Hd. }
  destruct (for_each_establish
              (λ st, ice_inv grid R C iv t st.1 st.2
                     ∧ at2 st.1 (r, c) = Some (Fin t)
                     ∧ (ice_measure st.1 st.2 ≤ ice_measure ice q)%nat
                     ∧ (∀ p v, at2 ice p = Some (Fin v) → at2 st.1 p = Some (Fin v))
                     ∧ ∃ l, st.2 = q ++ l)
              (λ d st, ¬ open_cell grid (r + d.1, c + d.2)
                       ∨ ∃ v, at2 st.1 (r + d.1, c + d.2) = Some (Fin v) ∧ v ≤ t + iv)
              (λ d, d) [d1; d2; d3]
              (relax grid (Z.of_nat R) (Z.of_nat C) iv r c t) (ice, q))
    as ([ice' q'] & Hrun & (Hinv' & _ & Hm & Hkeep & Hgrow) & Hserved & _).
  - intros d [ice1 q1] Hd (Hi & Hrc1 & Hm & Hkeep & (l & Hl)). cbn [fst snd] in *.
    destruct (relax_inv grid R C iv grid_shape t r c k d ice1 q1
                Hi (Hsub d Hd) Hk Hlayer Hrc1) as (st' & Hst' & Hi' & Hrc' & Hm').
    destruct (relax_effect t r c d ice1 q1 st' Hi Hst') as (Hkeep' & (l' & Hl') & Hnb).
    exists st'. split; [exact Hst'|]. split; [|split; [exact Hnb|]].
    + split; [exact Hi'|]. split; [exact Hrc'|]. split; [lia|]. split.
      * intros p v Hv. by apply Hkeep', Hkeep.
      * exists (l ++ l'). rewrite Hl', Hl. by rewrite app_assoc.
    + intros d' [Hno|(v & Hv & Hle)]; [by left|]. right. exists v.
      split; [by apply Hkeep'|exact Hle].
  - cbn [fst snd]. split; [exact Hinv|]. split; [exact Hrc|]. split; [lia|].
    split; [done|]. exists []. by rewrite app_nil_r.
  - rewrite Hrun. cbn [bind fst snd] in *. exists ice', q', g'.
    split; [reflexivity|]. split; [exact Hinv'|]. split.
    { unfold ice_measure in *. simpl. lia. }
    split; [exact Hkeep|]. split; [exact Hgrow|].
    exists d4. intros d Hd Hne. apply Hserved.
    rewrite <- Hperm in Hd.
    apply elem_of_cons in Hd as [->|Hd]; [by left|].
    right. apply elem_of_cons in Hd as [->|Hd]; [by left|].
    right. apply elem_of_cons in Hd as [->|Hd]; [by left|].
    apply list_elem_of_singleton in Hd. congruence.
Qed.

Lemma ice_loop_served fuel lo ice q g :
  ice_inv grid R C iv lo ice q → seeds_served grid iv ice q →
  (ice_measure ice q < fuel)%nat →
  ∃ ice' g', ice_loop fuel grid (Z.of_nat R) (Z.of_nat C) iv ice q g = Ok (ice', g')
             ∧ seeds_served grid iv ice' []
             ∧ ∃ lo', ice_inv grid R C iv lo' ice' [].
Proof.
  revert lo ice q g. induction fuel as [|fuel IH]; intros lo ice q g Hinv Hsv Hm; [lia|].
  cbn [ice_loop]. destruct q as [|[[r c] t] q].
  - exists ice, g. split; [done|]. split; [done|]. by exists lo.
  - destruct (expand_effect lo r c t ice q g Hinv)
      as (ice' & q' & g' & -> & Hinv' & Hm' & Hkeep & (l & ->) & (skipped & Hsk)).
    cbn [bind]. eapply IH; [exact Hinv'| |].
    2:{ unfold ice_measure in Hm, Hm' |- *. cbn [length] in Hm, Hm'. lia. }
    intros s Hs.
    assert (spread_done grid ice iv s → spread_done grid ice' iv s) as Hold.
    { intros (sk & Hsk'). exists sk. intros d Hd Hne.
      destruct (Hsk' d Hd Hne) as [?|(v & Hv & ?)]; [by left|].
         right. exists v. split; [by apply Hkeep|done]. }
    destruct (Hsv s Hs) as [Hin|Hdone]; [|right; by apply Hold].
    rewrite fmap_cons in Hin. apply elem_of_cons in Hin as [->|Hin].
    + right. unfold entry_cell. cbn [fst snd].
      destruct (inv_entries _ _ _ _ _ _ _ Hinv (r, c, t) ltac:(left)) as [Hv _].
      unfold entry_cell, entry_time in Hv. cbn [fst snd] in Hv.
      unfold entry_cell in Hs. cbn [fst snd] in Hs.
      rewrite (inv_seed _ _ _ _ _ _ _ Hinv _ Hs) in Hv. injection Hv as <-.
      exists skipped. intros d Hd Hne.
      destruct (Hsk d Hd Hne) as [?|(v & Hv & ?)]; [by left|].
      right. exists v. split; [done|lia].
    + left. rewrite fmap_app. apply elem_of_app. by left.
Qed.

Lemma seed_cell_queue r c st st' :
  seed_cell grid r c st = Ok st' → 0 ≤ r → 0 ≤ c →
  (∃ l, st'.2 = st.2 ++ l)
  ∧ (is_seed grid (r, c) → (r, c) ∈ entry_cell <$> st'.2).
Proof.
  unfold seed_cell. rewrite bind_Ok. intros (ch & Hch & Hrest) Hr Hc.
  apply get2_Ok in Hch; [|done..].
  destruct (Ascii.eqb_spec ch "I") as [->|Hns].
  - apply bind_Ok in Hrest as (ice' & _ & [= <-]). cbn [snd]. split; [by eexists|].
    intros _. rewrite fmap_app. apply elem_of_app. right. by left.
  - injection Hrest as <-. split; [exists []; by rewrite app_nil_r|].
    unfold is_seed. congruence.
Qed.

Lemma seed_all_queue st :
  seed_inv grid R C st →
  ∃ st', seed_all grid (Z.of_nat R) (Z.of_nat C) st = Ok st'
         ∧ ∀ s, is_seed grid s → s ∈ entry_cell <$> st'.2.
Proof.
  intros Hinv. unfold seed_all.
  set (inner := λ r st, for_each (range (Z.of_nat C))
                          (λ c st, seed_cell grid r c st) st).
  set (Q := λ (p : Z * Z) (st : IceTime * list Entry),
              is_seed grid p → p ∈ entry_cell <$> st.2).
  assert (∀ r t, r ∈ range (Z.of_nat R) → seed_inv grid R C t →
            ∃ t', inner r t = Ok t' ∧ seed_inv grid R C t'
                  ∧ (∀ c, c ∈ range (Z.of_nat C) → Q (r, c) t')
                  ∧ (∀ p, Q p t → Q p t')) as Hinner.
  { intros r t Hr Ht. unfold inner.
    apply (for_each_establish (seed_inv grid R C) Q (λ c, (r, c))); [|done].
    intros c u Hc Hu. apply elem_of_range in Hr, Hc.
    destruct (seed_cell_inv grid R C grid_shape r c u) as (u' & Hu' & Hi' & _);
      [apply in_bounds_spec; lia|done|].
    destruct (seed_cell_queue r c u u' Hu') as [(l & Hl) Hq]; [lia..|].
    exists u'. split; [done|]. split; [done|]. split; [exact Hq|].
    intros p Hp Hs. rewrite Hl, fmap_app. apply elem_of_app. left. by apply Hp. }
  destruct (for_each_establish (seed_inv grid R C)
              (λ r st, ∀ c, c ∈ range (Z.of_nat C) → Q (r, c) st)
              (λ r, r) (range (Z.of_nat R)) inner st)
    as (st' & Hrun & _ & Hall & _); [|done|].
  { intros r t Hr Ht. destruct (Hinner r t Hr Ht) as (t' & ? & ? & ? & Hkeep).
    exists t'. split; [done|]. split; [done|]. split; [done|].
    intros r' Hr' c Hc. by apply Hkeep, Hr'. }
  exists st'. split; [done|]. intros [r c] Hs.
  assert (in_bounds (Z.of_nat R) (Z.of_nat C) r c = true) as Hin.
  { apply (at2_in_bounds grid R C (r, c) grid_shape). by eexists. }
  apply in_bounds_spec in Hin as [Hr Hc].
  apply Hall; [by apply elem_of_range|by apply elem_of_range|done].
Qed.

Lemma compute_ice_times_served g :
  (0 < R)%nat →
  ∃ ice g', compute_ice_times grid iv g = Ok (ice, g')
            ∧ seeds_served grid iv ice []
            ∧ ∃ lo, ice_inv grid R C iv lo ice [].
Proof.
  intros HR. unfold compute_ice_times.
  rewrite (dims_shape grid R C grid_shape HR). cbn [bind]. rewrite !Nat2Z.id.
  assert (seed_inv grid R C (replicate R (replicate C Inf), [])) as Hs0.
  { constructor; cbn [fst snd].
    - apply shape_replicate.
    - intros p v Hv. by apply at2_replicate in Hv.
    - intros e He. by apply elem_of_nil in He. }
  destruct (seed_all_inv grid R C grid_shape _ Hs0) as ([ice0 q0] & Hrun & Hs & Hseeds & Hlen).
  destruct (seed_all_queue _ Hs0) as (st' & Hrun' & Hq).
  rewrite Hrun in Hrun'. injection Hrun' as <-. rewrite Hrun.
  cbn [bind fst snd] in *.
  apply (ice_loop_served _ 0).
  - constructor.
    + apply (sinv_shape _ _ _ _ Hs).
    + exists q0, []. rewrite app_nil_r. split; [done|]. split; [|done].
      apply Forall_forall. intros e He. by apply (sinv_entries _ _ _ _ Hs).
    + intros p v Hv. apply (sinv_cells _ _ _ _ Hs) in Hv as [-> _]. lia.
    + intros e He. apply (sinv_entries _ _ _ _ Hs) in He as (He1 & He2 & He3).
      split; [by rewrite He1|]. exists O. split; [lia|done].
    + done.
    + intros p v Hv Hns. by apply (sinv_cells _ _ _ _ Hs) in Hv as [_ ?].
  - intros s Hseed. left. by apply Hq.
  - unfold ice_measure, loop_bound.
    pose proof (count_matrix_le is_inf ice0 R C (sinv_shape _ _ _ _ Hs)).
    rewrite <- Nat2Z.inj_mul, Nat2Z.id. simpl in Hlen. lia.
Qed.
End spread.

(** X20. Attempting three of the four directions means that the ice
    misses at most one neighbour of a seed: in the matrix that
    [compute_ice_times] returns, for every seed there is a direction such
    that the neighbour in each other direction is outside the grid, a
    wall, another seed (time 0), or frozen at exactly one interval. *)
Theorem ice_reaches_all_but_one_neighbour grid R C interval g :
  shape grid R C → (0 < R)%nat → 1 ≤ interval →
  ∃ ice g',
    compute_ice_times grid interval g = Ok (ice, g')
    ∧ ∀ s, is_seed grid s →
        ∃ skipped, ∀ d, d ∈ directions → d ≠ skipped →
          ¬ open_cell grid (s.1 + d.1, s.2 + d.2)
          ∨ (is_seed grid (s.1 + d.1, s.2 + d.2)
             ∧ at2 ice (s.1 + d.1, s.2 + d.2) = Some (Fin 0))
          ∨ at2 ice (s.1 + d.1, s.2 + d.2) = Some (Fin interval).
Proof.
  intros Hsh HR Hiv.
  destruct (compute_ice_times_served grid R C interval Hsh ltac:(lia) g HR)
    as (ice & g' & Hrun & Hserved & lo & Hinv).
  exists ice, g'. split; [exact Hrun|]. intros s Hs.
  destruct (Hserved s Hs) as [Hin|(skipped & Hsk)].
  { rewrite fmap_nil in Hin. by apply elem_of_nil in Hin. }
  exists skipped. intros d Hd Hne.
  destruct (Hsk d Hd Hne) as [Hno|(v & Hv & Hle)]; [by left|]. right.
  assert (is_Some (at2 grid (s.1 + d.1, s.2 + d.2))) as [ch Hch].
  { apply (at2_in_bounds grid R C (_, _) Hsh).
    apply (at2_in_bounds ice R C (_, _) (inv_shape _ _ _ _ _ _ _ Hinv)). by eexists. }
  destruct (Ascii.eqb_spec ch "I") as [->|Hns].
  - left. split; [exact Hch|]. exact (inv_seed _ _ _ _ _ _ _ Hinv _ Hch).
  - right. assert (¬ is_seed grid (s.1 + d.1, s.2 + d.2)) as Hns'
      by (unfold is_seed; congruence).
    destruct (inv_cells _ _ _ _ _ _ _ Hinv _ v Hv Hns') as [(k & Hk & -> & _) _].
    rewrite Hv. do 2 f_equal. nia.
Qed.

Lemma ice_reaches_all_but_one_neighbour_witness :
  ∃ ice g',
    compute_ice_times sample_grid 2 zero_draws = Ok (ice, g')
    ∧ ∀ s, is_seed sample_grid s →
        ∃ skipped, ∀ d, d ∈ directions → d ≠ skipped →
          ¬ open_cell sample_grid (s.1 + d.1, s.2 + d.2)
          ∨ (is_seed sample_grid (s.1 + d.1, s.2 + d.2)
             ∧ at2 ice (s.1 + d.1, s.2 + d.2) = Some (Fin 0))
          ∨ at2 ice (s.1 + d.1, s.2 + d.2) = Some (Fin 2).
Proof.
  apply (ice_reaches_all_but_one_neighbour sample_grid 10 10 2 zero_draws).
  - split; [reflexivity|repeat constructor].
  - lia.
  - lia.
Defined.
